(** * Read-side navigation of a chunked prolly tree holding a JSON document

    A shallow embedding of [go/store/prolly/tree/json_cursor.go] (the
    document cursor [JsonCursor]) and of the repository-state file of
    package [env] ([mapTableHashes], [diffTableHashes],
    [MergeWouldStompChanges], [GetGCKeepers] and the methods of
    [RepoState]), together with the properties of these functions that the
    specification states (C1 to C10) and further properties read off the
    code (X1 to X27).

    Go values are modelled as follows.
    - [[]byte] is [list byte]; the nil slice and the empty slice are both [[]].
    - [error] is [option error], [None] being the nil error.
    - A function that may panic, or loop for ever, returns an [exec]:
      [Ret v] for a normal return, [Panic msg] for a run-time panic and
      [Diverge] when the loop counter given to the model is used up.
    - [*cursor] is an address into a store of cursor objects, so that two
      pointers to the same cursor see each other's writes. *)

From Stdlib Require Import ZArith String List Lia.
From stdpp Require Import base option list gmap strings.

Local Open Scope Z_scope.

(** ** Go-level preliminaries *)

Abbreviation bytes := (list Byte.byte).

(** [bs "text"] is the byte slice holding the characters of a literal. *)
Definition bs (s : string) : bytes := list_byte_of_string s.

(** The error values the sources create or test for: [io.EOF], and the
    errors made by [fmt.Errorf]; an error coming from a collaborator is
    any value of this type. *)
Inductive error : Type :=
  | io_EOF
  | Errorf (msg : string).

Inductive exec (A : Type) : Type :=
  | Ret (a : A)
  | Panic (msg : string)
  | Diverge.
Arguments Ret {A} a.
Arguments Panic {A} msg.
Arguments Diverge {A}.

#[global] Instance exec_ret : MRet exec := fun A a => Ret a.
#[global] Instance exec_bind : MBind exec := fun A B k m =>
  match m with
  | Ret a => k a
  | Panic msg => Panic msg
  | Diverge => Diverge
  end.

Definition panics {A : Type} (m : exec A) : Prop := exists msg, m = Panic msg.

Definition nil_deref : string := "invalid memory address or nil pointer dereference".
Definition index_out_of_range : string := "index out of range".
Definition slice_out_of_range : string := "slice bounds out of range".

(** Go's slice expressions [b[lo:]] and [b[lo:hi]] on a slice whose
    capacity equals its length; out of range they panic. *)
Definition slice_from (b : bytes) (lo : Z) : exec bytes :=
  if (0 <=? lo) && (lo <=? Z.of_nat (length b))
  then Ret (drop (Z.to_nat lo) b)
  else Panic slice_out_of_range.

Definition slice (b : bytes) (lo hi : Z) : exec bytes :=
  if (0 <=? lo) && (lo <=? hi) && (hi <=? Z.of_nat (length b))
  then Ret (take (Z.to_nat hi - Z.to_nat lo) (drop (Z.to_nat lo) b))
  else Panic slice_out_of_range.

(** ** Package env: table hashes of a root value *)

Module Env.

Abbreviation Hash := bytes.

(** The two methods of [doltdb.RootValue] that [mapTableHashes] calls,
    as the values they return for this root. *)
Record RootValue : Type := {
  GetTableNames : list string * option error;
  GetTableHash : string -> Hash * bool * option error;
}.

Definition mismatch : string :=
  "GetTableNames returned a table that GetTableHash says isn't there.".

(** The body of [for _, name := range names]. *)
Fixpoint mapTableHashes_range (root : RootValue) (names : list string)
    (nameToHash : gmap string Hash)
    : exec (option (gmap string Hash) * option error) :=
  match names with
  | [] => Ret (Some nameToHash, None)
  | name :: rest =>
      let '(h, ok, err) := GetTableHash root name in
      match err with
      | Some e => Ret (None, Some e)
      | None =>
          if negb ok then Panic mismatch
          else mapTableHashes_range root rest (<[name := h]> nameToHash)
      end
  end.

Definition mapTableHashes (root : RootValue)
    : exec (option (gmap string Hash) * option error) :=
  let '(names, err) := GetTableNames root in
  match err with
  | Some e => Ret (None, Some e)
  | None => mapTableHashes_range root names ∅
  end.

(** A root with the single table name [t] that [GetTableHash] does not find. *)
Definition lost_table_root : RootValue :=
  {| GetTableNames := (["t"%string], None);
     GetTableHash := fun _ => ([], false, None) |}.

End Env.

(** ** Package env: the repository state and the table differences

    The rest of the file that holds [mapTableHashes]. Values of other
    packages ([doltdb], [ref], [hash], [filesys], [encoding/json]) are known
    to this file only through the functions it calls on them; these are the
    fields of the classes and records below, each giving what the call
    returns, and they are taken to return. *)

Module Repo.
Import Env.

#[export] Instance byte_eq_dec : EqDecision Byte.byte := Byte.byte_eq_dec.

#[export] Instance error_eq_dec : EqDecision error.
Proof. solve_decision. Defined.

(** [hash.Hash{}], the zero value of the array type [hash.Hash]. *)
Definition zeroHash : Hash := replicate 20 Byte.x00.

(** The body of the first loop of [diffTableHashes], for one entry
    [(tName, hh)] of [headTableHashes]. *)
Definition diff_head (otherTableHashes diffs : gmap string Hash)
    (e : string * Hash) : gmap string Hash :=
  let '(tName, hh) := e in
  match otherTableHashes !! tName with
  | Some h => if decide (h = hh) then diffs else <[tName := h]> diffs
  | None => <[tName := zeroHash]> diffs
  end.

(** The body of its second loop, for one entry [(tName, h)] of
    [otherTableHashes]. *)
Definition diff_other (headTableHashes diffs : gmap string Hash)
    (e : string * Hash) : gmap string Hash :=
  let '(tName, h) := e in
  match headTableHashes !! tName with
  | Some _ => diffs
  | None => <[tName := h]> diffs
  end.

(** [diffTableHashes], the two range statements yielding the entries of the
    maps in the orders [hs] and [os]: Go leaves the order of a range over a
    map open. A nil map reads as the empty map. *)
Definition diffTableHashes_in (hs os : list (string * Hash))
    (headTableHashes otherTableHashes : gmap string Hash) : gmap string Hash :=
  foldl (diff_other headTableHashes) (foldl (diff_head otherTableHashes) ∅ hs) os.

Definition diffTableHashes (headTableHashes otherTableHashes : gmap string Hash)
    : gmap string Hash :=
  diffTableHashes_in (map_to_list headTableHashes) (map_to_list otherTableHashes)
    headTableHashes otherTableHashes.

(** What the two maps say about one table name, and the entry of the
    difference that corresponds to it. *)
Definition diff_at (hh h : option Hash) : option Hash :=
  match hh, h with
  | Some hh, Some h => if decide (h = hh) then None else Some h
  | Some _, None => Some zeroHash
  | None, Some h => Some h
  | None, None => None
  end.

(** [GetTableHash] finds the table and returns no error; the hash it gives. *)
Definition hashed (root : RootValue) (name : string) : Prop :=
  exists h, GetTableHash root name = (h, true, None).

Definition hashOf (root : RootValue) (name : string) : Hash :=
  (GetTableHash root name).1.1.

(** The loop of [MergeWouldStompChanges] over [headWorkingDiffs], its
    entries yielded in the order [ws]. *)
Definition stomped (mergedHeadDiffs : gmap string Hash) (ws : list (string * Hash))
    : list string :=
  foldl (fun stompedTables '(tName, _) =>
           match mergedHeadDiffs !! tName with
           | Some _ => stompedTables ++ [tName]
           | None => stompedTables
           end) [] ws.

(** The types and functions of the packages [ref], [doltdb] and [hash],
    and the names of package [env] itself that the sources do not hold:
    the type [Remote] with its field [Name], the error [ErrStateUpdate] and
    the function [getRepoStateFile]. *)
Class Doltdb : Type := {
  DoltRef : Type;
  CommitSpec : Type;
  Value : Type;
  Remote : Type;
  Name : Remote -> string;
  ref_Parse : string -> DoltRef * option error;
  NewBranchRef : string -> DoltRef;
  NewCommitSpec : string -> CommitSpec * option error;
  hash_Parse : string -> Hash;
  hash_String : Hash -> string;
  ErrNomsIO : error;
  ErrStateUpdate : error;
  getRepoStateFile : string;
}.

(** [filesys.ReadWriteFS]: reading and writing a file, in a file system
    whose state is passed along. *)
Class Filesys : Type := {
  FS : Type;
  ReadFile : string -> FS -> bytes * option error;
  WriteFile : string -> bytes -> FS -> option error * FS;
}.

Section Repo.
Context `{D : Doltdb} `{F : Filesys}.

(** A [*doltdb.RootValue] and a [*doltdb.Commit], by what their methods
    return. *)
Record Root : Type := {
  tables : RootValue;
  Root_HashOf : Hash * option error;
}.

Record Commit : Type := {
  GetRootValue : Root * option error;
  Commit_HashOf : Hash * option error;
}.

Record DoltDB : Type := {
  ResolveCommitRef : DoltRef -> Commit * option error;
  ReadRootValue : Hash -> Root * option error;
  Resolve : CommitSpec -> Commit * option error;
  ReadValue : Hash -> option Value * option error;
}.

(** The interfaces [RepoStateReader] and [RepoStateWriter], with the
    methods that the functions of the file call. *)
Record RepoStateReader : Type := {
  rsr_CWBHeadRef : DoltRef;
  rsr_WorkingRoot : Root * option error;
  rsr_StagedHash : Hash;
  rsr_IsMergeActive : bool;
  rsr_GetMergeCommit : string;
  rsr_GetPreMergeWorking : string;
}.

Record RepoStateWriter : Type := {
  rsw_UpdateStagedRoot : Root -> option error;
  rsw_UpdateWorkingRoot : Root -> option error;
}.

Record DbData : Type := {
  Ddb : DoltDB;
  Rsw : RepoStateWriter;
  Rsr : RepoStateReader;
}.

Record MarshalableRef : Type := { Ref : DoltRef }.

Record BranchConfig : Type := {
  BranchConfig_Merge : MarshalableRef;
  BranchConfig_Remote : string;
}.

Record MergeState : Type := {
  MergeState_Commit : string;
  PreMergeWorking : string;
}.

(** [RepoState]. The field [Merge] is a pointer, nil or to a merge state;
    a map field is nil or a map. *)
Record RepoState : Type := {
  Head : MarshalableRef;
  Merge : option MergeState;
  Remotes : option (gmap string Remote);
  Branches : option (gmap string BranchConfig);
  staged : string;
  working : string;
}.

Definition set_Merge (m : option MergeState) (rs : RepoState) : RepoState :=
  {| Head := Head rs; Merge := m; Remotes := Remotes rs; Branches := Branches rs;
     staged := staged rs; working := working rs |}.

Definition set_working (w : string) (rs : RepoState) : RepoState :=
  {| Head := Head rs; Merge := Merge rs; Remotes := Remotes rs; Branches := Branches rs;
     staged := staged rs; working := w |}.

Definition set_Remotes (r : option (gmap string Remote)) (rs : RepoState) : RepoState :=
  {| Head := Head rs; Merge := Merge rs; Remotes := r; Branches := Branches rs;
     staged := staged rs; working := working rs |}.

(** [json.MarshalIndent], applied to a repository state. *)
Context (MarshalIndent : RepoState -> bytes * option error).

Definition assignment_to_nil_map : string := "assignment to entry in nil map".

(** The methods of [*RepoState] return the state they leave with their
    result. *)
Definition Save (rs : RepoState) (fs : FS) : option error * FS :=
  let '(data, err) := MarshalIndent rs in
  match err with
  | Some e => (Some e, fs)
  | None =>
      let path := getRepoStateFile in
      WriteFile path data fs
  end.

Definition CloneRepoState (fs : FS) (r : Remote)
    : option RepoState * option error * FS :=
  let h := zeroHash in
  let hashStr := hash_String h in
  let rs := {| Head := {| Ref := NewBranchRef "master" |};
               Merge := None;
               Remotes := Some {[ Name r := r ]};
               Branches := Some ∅;
               staged := hashStr;
               working := hashStr |} in
  let '(err, fs) := Save rs fs in
  match err with
  | Some e => (None, Some e, fs)
  | None => (Some rs, None, fs)
  end.

Definition CreateRepoState (fs : FS) (br : string) (rootHash : Hash)
    : option RepoState * option error * FS :=
  let '(headRef, err) := ref_Parse br in
  match err with
  | Some e => (None, Some e, fs)
  | None =>
      let rs := {| Head := {| Ref := headRef |};
                   Merge := None;
                   Remotes := Some ∅;
                   Branches := Some ∅;
                   staged := EmptyString;
                   working := EmptyString |} in
      let '(err, fs) := Save rs fs in
      match err with
      | Some e => (None, Some e, fs)
      | None => (Some rs, None, fs)
      end
  end.

Definition CWBHeadRef (rs : RepoState) : DoltRef := Ref (Head rs).

Definition StartMerge (commit : string) (rs : RepoState) (fs : FS)
    : RepoState * option error * FS :=
  let rs := set_Merge (Some {| MergeState_Commit := commit;
                               PreMergeWorking := working rs |}) rs in
  let '(err, fs) := Save rs fs in (rs, err, fs).

Definition ClearMerge (rs : RepoState) (fs : FS) : RepoState * option error * FS :=
  let rs := set_Merge None rs in
  let '(err, fs) := Save rs fs in (rs, err, fs).

Definition AbortMerge (rs : RepoState) (fs : FS)
    : exec (RepoState * option error * FS) :=
  match Merge rs with
  | None => Panic nil_deref
  | Some m => Ret (ClearMerge (set_working (PreMergeWorking m) rs) fs)
  end.

Definition AddRemote (r : Remote) (rs : RepoState) : exec RepoState :=
  match Remotes rs with
  | None => Panic assignment_to_nil_map
  | Some m => Ret (set_Remotes (Some (<[Name r := r]> m)) rs)
  end.

Definition IsMergeActive (rs : RepoState) : bool :=
  match Merge rs with Some _ => true | None => false end.

Definition GetMergeCommit (rs : RepoState) : exec string :=
  match Merge rs with
  | None => Panic nil_deref
  | Some m => Ret (MergeState_Commit m)
  end.

Definition UpdateWorkingRoot (rsw : RepoStateWriter) (newRoot : Root) : option error :=
  match rsw_UpdateWorkingRoot rsw newRoot with
  | Some _ => Some ErrStateUpdate
  | None => None
  end.

Definition HeadRoot (ddb : DoltDB) (rsr : RepoStateReader) : option Root * option error :=
  let '(commit, err) := ResolveCommitRef ddb (rsr_CWBHeadRef rsr) in
  match err with
  | Some e => (None, Some e)
  | None => let '(root, err) := GetRootValue commit in (Some root, err)
  end.

Definition StagedRoot (ddb : DoltDB) (rsr : RepoStateReader) : Root * option error :=
  ReadRootValue ddb (rsr_StagedHash rsr).

Definition UpdateStagedRoot (ddb : DoltDB) (rsw : RepoStateWriter) (newRoot : Root)
    : option error :=
  match rsw_UpdateStagedRoot rsw newRoot with
  | Some _ => Some ErrStateUpdate
  | None => None
  end.

(** [UpdateStagedRootWithVErr]; a verbose error is given by its message. *)
Definition UpdateStagedRootWithVErr (ddb : DoltDB) (rsw : RepoStateWriter)
    (updatedRoot : Root) : option string :=
  let err := UpdateStagedRoot ddb rsw updatedRoot in
  if decide (err = Some ErrNomsIO) then Some "fatal: failed to write value"%string
  else if decide (err = Some ErrStateUpdate) then
    Some "fatal: failed to update the staged root state"%string
  else None.

(** [mapTableHashes] called with the root that [HeadRoot] returned, which
    is nil when [HeadRoot] failed. *)
Definition mapTableHashes_of (root : option Root)
    : exec (option (gmap string Hash) * option error) :=
  match root with
  | Some r => mapTableHashes (tables r)
  | None => Panic nil_deref
  end.

(** [MergeWouldStompChanges]; the range over [headWorkingDiffs] yields its
    entries in the order of [map_to_list]. *)
Definition MergeWouldStompChanges (workingRoot : Root) (mergeCommit : Commit)
    (dbData : DbData)
    : exec (option (list string) * option (gmap string Hash) * option error) :=
  let '(headRoot, err) := HeadRoot (Ddb dbData) (Rsr dbData) in
  match err with
  | Some e => Ret (None, None, Some e)
  | None =>
      let '(mergeRoot, err) := GetRootValue mergeCommit in
      match err with
      | Some e => Ret (None, None, Some e)
      | None =>
          '(headTableHashes, err) ← mapTableHashes_of headRoot;
          match err with
          | Some e => Ret (None, None, Some e)
          | None =>
              '(workingTableHashes, err) ← mapTableHashes (tables workingRoot);
              match err with
              | Some e => Ret (None, None, Some e)
              | None =>
                  '(mergeTableHashes, err) ← mapTableHashes (tables mergeRoot);
                  match err with
                  | Some e => Ret (None, None, Some e)
                  | None =>
                      let headWorkingDiffs :=
                        diffTableHashes (default ∅ headTableHashes)
                                        (default ∅ workingTableHashes) in
                      let mergedHeadDiffs :=
                        diffTableHashes (default ∅ headTableHashes)
                                        (default ∅ mergeTableHashes) in
                      let stompedTables :=
                        stomped mergedHeadDiffs (map_to_list headWorkingDiffs) in
                      Ret (Some stompedTables, Some headWorkingDiffs, None)
                  end
              end
          end
      end
  end.

Definition dangling : error :=
  Errorf "MergeState.PreMergeWorking is a dangling hash".

Definition GetGCKeepers (rsr : RepoStateReader) (ddb : DoltDB)
    : option (list Hash) * option error :=
  let '(workingRoot, err) := rsr_WorkingRoot rsr in
  match err with
  | Some e => (None, Some e)
  | None =>
      let '(workingHash, err) := Root_HashOf workingRoot in
      match err with
      | Some e => (None, Some e)
      | None =>
          let keepers := [workingHash; rsr_StagedHash rsr] in
          if rsr_IsMergeActive rsr then
            let '(spec, err) := NewCommitSpec (rsr_GetMergeCommit rsr) in
            match err with
            | Some e => (None, Some e)
            | None =>
                let '(cm, err) := Resolve ddb spec in
                match err with
                | Some e => (None, Some e)
                | None =>
                    let '(ch, err) := Commit_HashOf cm in
                    match err with
                    | Some e => (None, Some e)
                    | None =>
                        let pmw := hash_Parse (rsr_GetPreMergeWorking rsr) in
                        let '(val, err) := ReadValue ddb pmw in
                        match err with
                        | Some e => (None, Some e)
                        | None =>
                            match val with
                            | None => (None, Some dangling)
                            | Some _ => (Some (keepers ++ [ch; pmw]), None)
                            end
                        end
                    end
                end
            end
          else (Some keepers, None)
      end
  end.

End Repo.
End Repo.

(** ** Concrete repositories

    Stand-ins for the collaborators of package [env], to run its functions:
    a reference, a commit spec and a value are strings, a remote is its name
    with its URL, a hash is parsed from the bytes of its text, and the file
    system is a map from paths to contents whose writes succeed. *)

Module RepoExamples.
Import Env Repo.

Definition doltdb : Doltdb := {|
  DoltRef := string;
  CommitSpec := string;
  Value := string;
  Remote := string * string;
  Name := fst;
  ref_Parse := fun s => (s, None);
  NewBranchRef := fun s => s;
  NewCommitSpec := fun s => (s, None);
  hash_Parse := bs;
  hash_String := string_of_list_byte;
  ErrNomsIO := Errorf "noms i/o error";
  ErrStateUpdate := Errorf "state update error";
  getRepoStateFile := ".dolt/repo_state.json";
|}.

Definition memfs : Filesys := {|
  FS := gmap string bytes;
  ReadFile := fun path fs =>
    match fs !! path with
    | Some data => (data, None)
    | None => ([], Some (Errorf "file does not exist"))
    end;
  WriteFile := fun path data fs => (None, <[path := data]> fs);
|}.

#[local] Existing Instance doltdb.
#[local] Existing Instance memfs.

(** A marshaller that writes the commit of the merge in progress. *)
Definition marshal (rs : RepoState) : bytes * option error :=
  (match Merge rs with
   | Some m => bs (MergeState_Commit m)
   | None => []
   end, None).

(** The root value that holds the given tables. *)
Definition rootOfTables (ts : list (string * Hash)) : RootValue :=
  {| GetTableNames := (ts.*1, None);
     GetTableHash := fun name =>
       match (list_to_map ts : gmap string Hash) !! name with
       | Some h => (h, true, None)
       | None => (zeroHash, false, None)
       end |}.

Definition rootWith (ts : list (string * Hash)) : Root :=
  {| tables := rootOfTables ts; Root_HashOf := (bs "root", None) |}.

Definition commitWith (ts : list (string * Hash)) : Commit :=
  {| GetRootValue := (rootWith ts, None); Commit_HashOf := (bs "commit", None) |}.

(** Three roots: the working root changed table [a], the merge root
    changed [a] in another way and added [c]. *)
Definition head_tables : list (string * Hash) :=
  [ ("a"%string, bs "a0"); ("b"%string, bs "b0") ].

Definition working_tables : list (string * Hash) :=
  [ ("a"%string, bs "a1"); ("b"%string, bs "b0") ].

Definition merge_tables : list (string * Hash) :=
  [ ("a"%string, bs "a2"); ("b"%string, bs "b0"); ("c"%string, bs "c0") ].

Definition hashesOf (ts : list (string * Hash)) : gmap string Hash := list_to_map ts.

Definition ddbWith (head : list (string * Hash)) : DoltDB :=
  {| ResolveCommitRef := fun _ => (commitWith head, None);
     ReadRootValue := fun _ => (rootWith head, None);
     Resolve := fun _ => (commitWith merge_tables, None);
     ReadValue := fun h => (Some "value"%string, None) |}.

Definition reader (merging : bool) : RepoStateReader :=
  {| rsr_CWBHeadRef := "refs/heads/master"%string;
     rsr_WorkingRoot := (rootWith working_tables, None);
     rsr_StagedHash := bs "staged";
     rsr_IsMergeActive := merging;
     rsr_GetMergeCommit := "feature"%string;
     rsr_GetPreMergeWorking := "before"%string |}.

(** A writer whose updates fail with an error of the storage layer. *)
Definition failing_writer : RepoStateWriter :=
  {| rsw_UpdateStagedRoot := fun _ => Some ErrNomsIO;
     rsw_UpdateWorkingRoot := fun _ => Some ErrNomsIO |}.

Definition dbDataWith (head : list (string * Hash)) : DbData :=
  {| Ddb := ddbWith head; Rsw := failing_writer; Rsr := reader false |}.

(** A root whose second table cannot be read. *)
Definition unreadable_root : RootValue :=
  {| GetTableNames := (["a"%string; "b"%string; "c"%string], None);
     GetTableHash := fun name =>
       if decide (name = "a"%string) then (bs "a0", true, None)
       else (zeroHash, false, Some (Errorf "table cannot be read")) |}.

(** A repository state with no merge in progress, and one whose map of
    remotes is nil. *)
Definition idle_state : RepoState :=
  {| Head := {| Ref := "refs/heads/master"%string |};
     Merge := None;
     Remotes := None;
     Branches := None;
     staged := "s"%string;
     working := "w"%string |}.

Definition origin : string * string := ("origin"%string, "https://example.com/repo"%string).

End RepoExamples.

(** ** The tree cursor

    The tree cursor of the repository ([Node], [NodeStore], [fetchChild]
    and the [cursor] type with its methods) is not among the sources. The
    definitions of this module follow sections 3, 4.1 and 6 of the
    specification; the names of the methods and of the fields [nd], [idx],
    [parent] and [nrw] are the ones [json_cursor.go] uses. *)

Module Tree.

Abbreviation Item := bytes.

(** Modelled from the spec: [Node], missing from the sources (section 3).
    A node has its ordered entries and the flag telling a leaf from an
    internal node. The value of an internal entry is the reference of a
    child; the value of a leaf entry is payload. *)
Record Node : Type := {
  entries : list (Item * Item);
  isLeaf : bool;
}.

Definition count (nd : Node) : Z := Z.of_nat (length (entries nd)).

Definition zeroNode : Node := {| entries := []; isLeaf := false |}.

(** Modelled from the spec: [NodeStore], missing from the sources
    (section 6). A node store resolves a reference to its node, or fails. *)
Definition NodeStore : Type := Item -> error + Node.

(** Modelled from the spec: [fetchChild], missing from the sources
    (section 6); on a failure it returns the error with the zero node. *)
Definition fetchChild (ns : NodeStore) (ref : Item) : Node * option error :=
  match ns ref with
  | inr nd => (nd, None)
  | inl e => (zeroNode, Some e)
  end.

(** Modelled from the spec: the type [cursor], missing from the sources
    (section 3), with the fields that [json_cursor.go] reads and writes.
    Cursor objects live in a store; a [*cursor] is nil or the address of an
    object of the store. *)
Abbreviation ptr := (option nat).

Record cursor : Type := {
  nd : Node;
  idx : Z;
  parent : ptr;
  nrw : NodeStore;
}.

Abbreviation heap := (list cursor).

Definition M (A : Type) : Type := heap -> exec (A * heap).

#[global] Instance M_ret : MRet M := fun A a h => Ret (a, h).
#[global] Instance M_bind : MBind M := fun A B k m h =>
  match m h with
  | Ret (a, h') => k a h'
  | Panic msg => Panic msg
  | Diverge => Diverge
  end.

Definition panic {A : Type} (msg : string) : M A := fun _ => Panic msg.
Definition diverge {A : Type} : M A := fun _ => Diverge.
Definition lift {A : Type} (m : exec A) : M A := fun h => a ← m; Ret (a, h).

(** Reading through a pointer, writing through it, and allocating. *)
Definition load (p : ptr) : M cursor := fun h =>
  match p with
  | None => Panic nil_deref
  | Some a =>
      match h !! a with
      | Some c => Ret (c, h)
      | None => Panic nil_deref
      end
  end.

Definition modify (p : ptr) (f : cursor -> cursor) : M unit := fun h =>
  match p with
  | None => Panic nil_deref
  | Some a =>
      match h !! a with
      | Some c => Ret (tt, <[a := f c]> h)
      | None => Panic nil_deref
      end
  end.

Definition alloc (c : cursor) : M ptr := fun h => Ret (Some (length h), h ++ [c]).

Definition set_idx (i : Z) (c : cursor) : cursor :=
  {| nd := nd c; idx := i; parent := parent c; nrw := nrw c |}.

Definition set_nd (n : Node) (c : cursor) : cursor :=
  {| nd := n; idx := idx c; parent := parent c; nrw := nrw c |}.

(** Modelled from the spec: [cursor.Valid], missing from the sources
    (section 3). A cursor is valid iff its index lies within the entry count
    of its node. *)
Definition valid (c : cursor) : bool := (0 <=? idx c) && (idx c <? count (nd c)).

Definition Valid (p : ptr) : M bool := c ← load p; mret (valid c).

(** Modelled from the spec: [cursor.CurrentKey], [cursor.currentValue] and
    [cursor.currentRef], missing from the sources (section 4.1). The read
    accessors fail on an invalid cursor, here with an index panic. *)
Definition currentEntry (p : ptr) : M (Item * Item) :=
  c ← load p;
  if valid c then
    match entries (nd c) !! Z.to_nat (idx c) with
    | Some e => mret e
    | None => panic index_out_of_range
    end
  else panic index_out_of_range.

Definition CurrentKey (p : ptr) : M Item := e ← currentEntry p; mret (fst e).
Definition currentValue (p : ptr) : M Item := e ← currentEntry p; mret (snd e).
Definition currentRef (p : ptr) : M Item := currentValue p.

(** Modelled from the spec: [cursor.clone], missing from the sources
    (section 4.1). It copies the node reference and the index, and clones
    the parent chain recursively; the nodes themselves are shared. The
    counter bounds the length of the parent chain that is followed. *)
Fixpoint clone_rec (fuel : nat) (p : ptr) : M ptr :=
  match fuel with
  | O => diverge
  | S fuel' =>
      c ← load p;
      par ← match parent c with
            | None => mret None
            | Some _ => clone_rec fuel' (parent c)
            end;
      alloc {| nd := nd c; idx := idx c; parent := par; nrw := nrw c |}
  end.

(** Modelled from the spec: [cursor.advance], missing from the sources
    (section 4.1). It moves to the next entry of the current node; when the
    node is exhausted it advances the parent and descends into the first
    entry of the new sibling; when the parent is exhausted too the cursor is
    left past the end, which is no error. *)
Fixpoint advance_rec (fuel : nat) (p : ptr) : M (option error) :=
  match fuel with
  | O => diverge
  | S fuel' =>
      c ← load p;
      if idx c <? count (nd c) - 1 then
        _ ← modify p (set_idx (idx c + 1)); mret None
      else
        match parent c with
        | None => _ ← modify p (fun c => set_idx (count (nd c)) c); mret None
        | Some _ =>
            err ← advance_rec fuel' (parent c);
            match err with
            | Some e => mret (Some e)
            | None =>
                ok ← Valid (parent c);
                if negb ok then
                  _ ← modify p (fun c => set_idx (count (nd c)) c); mret None
                else
                  ref ← currentRef (parent c);
                  let '(n, err) := fetchChild (nrw c) ref in
                  match err with
                  | Some e => mret (Some e)
                  | None =>
                      _ ← modify p (fun c => set_idx 0 (set_nd n c)); mret None
                  end
            end
        end
  end.

(** Modelled from the spec: [cursor.retreat], missing from the sources
    (section 4.1), the symmetric operation: the previous entry of the
    current node, or the last entry of the previous sibling, or before the
    start. *)
Fixpoint retreat_rec (fuel : nat) (p : ptr) : M (option error) :=
  match fuel with
  | O => diverge
  | S fuel' =>
      c ← load p;
      if 0 <? idx c then
        _ ← modify p (set_idx (idx c - 1)); mret None
      else
        match parent c with
        | None => _ ← modify p (set_idx (-1)); mret None
        | Some _ =>
            err ← retreat_rec fuel' (parent c);
            match err with
            | Some e => mret (Some e)
            | None =>
                ok ← Valid (parent c);
                if negb ok then
                  _ ← modify p (set_idx (-1)); mret None
                else
                  ref ← currentRef (parent c);
                  let '(n, err) := fetchChild (nrw c) ref in
                  match err with
                  | Some e => mret (Some e)
                  | None =>
                      _ ← modify p (fun c => set_idx (count n - 1) (set_nd n c));
                      mret None
                  end
            end
        end
  end.

(** A parent chain that revisits no object is no longer than the store;
    on a chain that runs into itself the recursion of the three methods does
    not end, and the counter runs out. *)
Definition clone (p : ptr) : M ptr := fun h => clone_rec (length h) p h.
Definition advance (p : ptr) : M (option error) := fun h => advance_rec (length h) p h.
Definition retreat (p : ptr) : M (option error) := fun h => retreat_rec (length h) p h.

End Tree.

(** ** Positions of a cursor in the tree

    The notions in which the properties of [getPreviousKey] are stated: the
    parent chain of a cursor in the store, the entries of the tree that lie
    before the position of a cursor, and the trees in which every internal
    entry carries the last key of the node it refers to. *)

Module Position.
Import Tree.

(** [chain h p l cs]: following [parent] from [p] meets the addresses [l],
    which hold the objects [cs], and then nil; no address is met twice. *)
Inductive chain (h : heap) : ptr -> list nat -> list cursor -> Prop :=
  | chain_nil : chain h None [] []
  | chain_cons a c l cs :
      h !! a = Some c ->
      chain h (parent c) l cs ->
      a ∉ l ->
      chain h (Some a) (a :: l) (c :: cs).

(** What a level of the chain says about the position: its node, its index
    and its store. *)
Record level : Type := {
  l_nd : Node;
  l_idx : Z;
  l_nrw : NodeStore;
}.

Definition level_of (c : cursor) : level :=
  {| l_nd := nd c; l_idx := idx c; l_nrw := nrw c |}.

Definition l_valid (a : level) : bool := (0 <=? l_idx a) && (l_idx a <? count (l_nd a)).

Definition l_entry (a : level) : option (Item * Item) :=
  if l_valid a then entries (l_nd a) !! Z.to_nat (l_idx a) else None.

(** The effect of [retreat] on the levels of a chain, the cursor first and
    the root last. *)
Fixpoint retreat_levels (lv : list level) : option error * list level :=
  match lv with
  | [] => (None, [])
  | c :: up =>
      if 0 <? l_idx c then
        (None, {| l_nd := l_nd c; l_idx := l_idx c - 1; l_nrw := l_nrw c |} :: up)
      else
        match up with
        | [] => (None, [ {| l_nd := l_nd c; l_idx := -1; l_nrw := l_nrw c |} ])
        | _ :: _ =>
            let '(err, up') := retreat_levels up in
            match err with
            | Some e => (Some e, c :: up')
            | None =>
                match head up' ≫= l_entry with
                | None => (None, {| l_nd := l_nd c; l_idx := -1; l_nrw := l_nrw c |} :: up')
                | Some e =>
                    let '(n, err) := fetchChild (l_nrw c) e.2 in
                    match err with
                    | Some e => (Some e, c :: up')
                    | None =>
                        (None, {| l_nd := n; l_idx := count n - 1; l_nrw := l_nrw c |} :: up')
                    end
                end
            end
        end
  end.

(** The effect of [advance] on the levels of a chain. *)
Fixpoint advance_levels (lv : list level) : option error * list level :=
  match lv with
  | [] => (None, [])
  | c :: up =>
      if l_idx c <? count (l_nd c) - 1 then
        (None, {| l_nd := l_nd c; l_idx := l_idx c + 1; l_nrw := l_nrw c |} :: up)
      else
        match up with
        | [] => (None, [ {| l_nd := l_nd c; l_idx := count (l_nd c); l_nrw := l_nrw c |} ])
        | _ :: _ =>
            let '(err, up') := advance_levels up in
            match err with
            | Some e => (Some e, c :: up')
            | None =>
                match head up' ≫= l_entry with
                | None =>
                    (None, {| l_nd := l_nd c; l_idx := count (l_nd c);
                              l_nrw := l_nrw c |} :: up')
                | Some e =>
                    let '(n, err) := fetchChild (l_nrw c) e.2 in
                    match err with
                    | Some e => (Some e, c :: up')
                    | None => (None, {| l_nd := n; l_idx := 0; l_nrw := l_nrw c |} :: up')
                    end
                end
            end
        end
  end.

(** What [getPreviousKey] returns, read off the levels of the chain of its
    argument: the levels of the clone after [retreat], and the key of the
    entry its parent level stands on. *)
Definition previousKey_levels (lv : list level) : exec (option bytes * option error) :=
  let '(err, lv') := retreat_levels lv in
  match err with
  | Some e => Ret (None, Some e)
  | None =>
      match lv' with
      | [] => Panic nil_deref
      | c' :: up' =>
          if l_valid c' then
            match up' with
            | [] => Panic nil_deref
            | a' :: _ =>
                match l_entry a' with
                | Some e => Ret (Some e.1, None)
                | None => Panic index_out_of_range
                end
            end
          else Ret (None, None)
      end
  end.

(** [on_heap h m r]: the run [m], started in the store [h], ends as [r]
    does, and when it returns it has only added objects to [h]. *)
Definition on_heap {A : Type} (h : heap) (m : exec (A * heap)) (r : exec A) : Prop :=
  match r with
  | Ret a => exists cl, m = Ret (a, h ++ cl)
  | Panic msg => m = Panic msg
  | Diverge => m = Diverge
  end.

(** The entries of the children of an entry, and the entries [d] levels
    below a list of entries. *)
Definition children (ns : NodeStore) (e : Item * Item) : list (Item * Item) :=
  match ns e.2 with
  | inr ch => entries ch
  | inl _ => []
  end.

Fixpoint below (ns : NodeStore) (d : nat) (es : list (Item * Item)) : list (Item * Item) :=
  match d with
  | O => es
  | S d' => below ns d' es ≫= children ns
  end.

(** The entries of the tree, [d] levels below the level of the cursor, that
    come before the position of the cursor: those under the entries to the
    left of each ancestor, the highest ancestor first, and last those to the
    left of the cursor in its own node. *)
Fixpoint beforeAt (ns : NodeStore) (d : nat) (lv : list level) : list (Item * Item) :=
  match lv with
  | [] => []
  | c :: up =>
      beforeAt ns (S d) up ++ below ns d (take (Z.to_nat (l_idx c)) (entries (l_nd c)))
  end.

Definition before (ns : NodeStore) (lv : list level) : list (Item * Item) :=
  beforeAt ns O lv.

(** Linked levels: the node of each level is the child that the entry of
    the level above refers to. *)
Fixpoint linked (ns : NodeStore) (lv : list level) : Prop :=
  match lv with
  | c :: up =>
      match up with
      | a :: _ => (exists e, l_entry a = Some e /\ ns e.2 = inr (l_nd c)) /\ linked ns up
      | [] => True
      end
  | [] => True
  end.

(** A well-formed subtree of height [H]: no node is empty, every reference
    resolves, and every internal entry carries the last key of its child. *)
Fixpoint wfNode (ns : NodeStore) (H : nat) (n : Node) : Prop :=
  match H with
  | O => entries n <> []
  | S H' =>
      entries n <> [] /\
      Forall (fun e => exists ch,
                ns e.2 = inr ch /\ wfNode ns H' ch /\
                fst <$> last (entries ch) = Some e.1) (entries n)
  end.

(** Well-formed levels, the first of height [H]: each stands on an entry of
    a well-formed node and resolves references in [ns]. *)
Fixpoint wfLevels (ns : NodeStore) (H : nat) (lv : list level) : Prop :=
  match lv with
  | [] => True
  | c :: up =>
      wfNode ns H (l_nd c) /\ l_valid c = true /\ l_nrw c = ns /\
      wfLevels ns (S H) up
  end.

(** Entries of a well-formed node of height [K], at least one. *)
Definition entries_ok (ns : NodeStore) (K : nat) (es : list (Item * Item)) : Prop :=
  es <> [] /\
  match K with
  | O => True
  | S K' => Forall (fun e => exists ch, ns e.2 = inr ch /\ wfNode ns K' ch) es
  end.

End Position.

(** ** The document cursor *)

Module Json.
Import Tree.

(** What [json_cursor.go] uses of the document scanner and of the location
    ordering, whose files are not among the sources: the type
    [jsonLocation] with its field [key] and its comparison, and the type
    [JsonScanner] with the fields [jsonBuffer], [valueOffset] and
    [currentPath], the test [atStartOfValue], the scanner's own method
    [AdvanceToNextLocation] (here [scanner_AdvanceToNextLocation], which
    returns the error and the scanner it leaves) and the two constructors.
    These functions are taken to return. The cursor functions below are
    written once, for every implementation of this interface. *)
Class Scanning : Type := {
  jsonLocation : Type;
  key : jsonLocation -> bytes;
  compareJsonLocations : jsonLocation -> jsonLocation -> Z;
  JsonScanner : Type;
  jsonBuffer : JsonScanner -> bytes;
  valueOffset : JsonScanner -> Z;
  currentPath : JsonScanner -> jsonLocation;
  atStartOfValue : JsonScanner -> bool;
  scanner_AdvanceToNextLocation : JsonScanner -> option error * JsonScanner;
  ScanJsonFromMiddle : bytes -> jsonLocation -> JsonScanner;
  ScanJsonFromMiddleWithKey : bytes -> option bytes -> JsonScanner;
}.

(** The generic tree function [Seek], which repositions a cursor by key,
    taken with the ordering [jsonLocationOrdering] already applied. *)
Class Seeking : Type := {
  Seek : ptr -> bytes -> M (option error);
}.

Section Cursor.
Context `{Sc : Scanning} `{Sk : Seeking}.

Record JsonCursor : Type := {
  cur : ptr;
  jsonScanner : JsonScanner;
}.

Definition set_scanner (s : JsonScanner) (j : JsonCursor) : JsonCursor :=
  {| cur := cur j; jsonScanner := s |}.

Definition unexpected_state : error :=
  Errorf "JSON cursor in unexpected state. This is likely a bug".

Definition getPreviousKey (cur : ptr) : M (option bytes * option error) :=
  cur2 ← clone cur;
  err ← retreat cur2;
  match err with
  | Some e => mret (None, Some e)
  | None =>
      ok ← Valid cur2;
      if ok : bool then
        c2 ← load cur2;
        k ← CurrentKey (parent c2);
        mret (Some k, None)
      else mret (None, None)
  end.

(** [JsonCursor.AdvanceToNextLocation]: the loop [for { ... }], with the
    named result [crossedBoundary] carried from one turn to the next. *)
Fixpoint AdvanceToNextLocation_from (fuel : nat) (crossedBoundary : bool)
    (j : JsonCursor) : M (bool * option error * JsonCursor) :=
  match fuel with
  | O => diverge
  | S fuel' =>
      let '(err, s) := scanner_AdvanceToNextLocation (jsonScanner j) in
      let j := set_scanner s j in
      match err with
      | Some io_EOF =>
          err ← advance (cur j);
          match err with
          | Some e => mret (true, Some e, j)
          | None =>
              ok ← Valid (cur j);
              if negb ok then mret (true, Some io_EOF, j)
              else
                v ← currentValue (cur j);
                AdvanceToNextLocation_from fuel' true
                  (set_scanner (ScanJsonFromMiddle v (currentPath (jsonScanner j))) j)
          end
      | Some e => mret (crossedBoundary, Some e, j)
      | None => mret (crossedBoundary, None, j)
      end
  end.

Definition AdvanceToNextLocation (fuel : nat) (j : JsonCursor)
    : M (bool * option error * JsonCursor) :=
  AdvanceToNextLocation_from fuel false j.

(** The local variables of [NextValue] that its closure [parseChunk]
    shares with it. *)
Record frame : Type := {
  f_j : JsonCursor;
  result : bytes;
  f_jsonBuffer : bytes;
  startPos : Z;
}.

Definition parseChunk (fuel : nat) (f : frame) : M (option error * frame) :=
  '(crossedBoundary, err, j) ← AdvanceToNextLocation fuel (f_j f);
  match err with
  | Some e =>
      mret (Some e, {| f_j := j; result := result f;
                       f_jsonBuffer := f_jsonBuffer f; startPos := startPos f |})
  | None =>
      if crossedBoundary : bool then
        rest ← lift (slice_from (f_jsonBuffer f) (startPos f));
        mret (None, {| f_j := j; result := result f ++ rest;
                       f_jsonBuffer := jsonBuffer (jsonScanner j); startPos := 0 |})
      else
        mret (None, {| f_j := j; result := result f;
                       f_jsonBuffer := f_jsonBuffer f; startPos := startPos f |})
  end.

(** The loop [for compareJsonLocations(j.jsonScanner.currentPath, path) < 0]
    of [NextValue] and the statements after it. *)
Fixpoint NextValue_loop (fuel n : nat) (path : jsonLocation) (f : frame)
    : M (bytes * option error * JsonCursor) :=
  if compareJsonLocations (currentPath (jsonScanner (f_j f))) path <? 0 then
    match n with
    | O => diverge
    | S n' =>
        '(err, f) ← parseChunk fuel f;
        match err with
        | Some e => mret (result f, Some e, f_j f)
        | None => NextValue_loop fuel n' path f
        end
    end
  else
    last ← lift (slice (f_jsonBuffer f) (startPos f) (valueOffset (jsonScanner (f_j f))));
    mret (result f ++ last, None, f_j f).

Definition NextValue (fuel : nat) (j : JsonCursor)
    : M (bytes * option error * JsonCursor) :=
  if negb (atStartOfValue (jsonScanner j)) then
    mret ([], Some unexpected_state, j)
  else
    let path := currentPath (jsonScanner j) in
    let f := {| f_j := j; result := [];
                f_jsonBuffer := jsonBuffer (jsonScanner j);
                startPos := valueOffset (jsonScanner j) |} in
    '(err, f) ← parseChunk fuel f;
    match err with
    | Some e => mret (result f, Some e, f_j f)
    | None => NextValue_loop fuel fuel path f
    end.

Fixpoint AdvanceToLocation (fuel : nat) (j : JsonCursor) (path : jsonLocation)
    : M (option error * JsonCursor) :=
  if compareJsonLocations (currentPath (jsonScanner j)) path <? 0 then
    match fuel with
    | O => diverge
    | S fuel' =>
        let '(err, s) := scanner_AdvanceToNextLocation (jsonScanner j) in
        let j := set_scanner s j in
        match err with
        | Some io_EOF =>
            c ← load (cur j);
            err ← Seek (parent c) (key path);
            match err with
            | Some e => mret (Some e, j)
            | None =>
                c ← load (cur j);
                ref ← currentRef (parent c);
                let '(n, err) := fetchChild (nrw c) ref in
                _ ← modify (cur j) (set_nd n);
                match err with
                | Some e => mret (Some e, j)
                | None =>
                    '(previousKey, err) ← getPreviousKey (cur j);
                    match err with
                    | Some e => mret (Some e, j)
                    | None =>
                        v ← currentValue (cur j);
                        AdvanceToLocation fuel'
                          (set_scanner (ScanJsonFromMiddleWithKey v previousKey) j) path
                    end
                end
            end
        | Some e => mret (Some e, j)
        | None => AdvanceToLocation fuel' j path
        end
    end
  else mret (None, j).

Definition GetCurrentPath (j : JsonCursor) : jsonLocation :=
  currentPath (jsonScanner j).

(** [newJsonCursor]; the generic [newCursorAtKey], taken with the ordering
    applied, is its first argument. *)
Definition newJsonCursor
    (newCursorAtKey : NodeStore -> Node -> bytes -> M (ptr * option error))
    (fuel : nat) (ns : NodeStore) (root : Node) (startKey : jsonLocation)
    : M (option JsonCursor * option error) :=
  '(cur, err) ← newCursorAtKey ns root (key startKey);
  match err with
  | Some e => mret (None, Some e)
  | None =>
      '(previousKey, err) ← getPreviousKey cur;
      match err with
      | Some e => mret (None, Some e)
      | None =>
          jsonBytes ← currentValue cur;
          let jsonDecoder := ScanJsonFromMiddleWithKey jsonBytes previousKey in
          let jcur := {| cur := cur; jsonScanner := jsonDecoder |} in
          '(err, jcur) ← AdvanceToLocation fuel jcur startKey;
          match err with
          | Some e => mret (None, Some e)
          | None => mret (Some jcur, None)
          end
      end
  end.

(** The runs of [AdvanceToLocation], as a relation between the states
    before and after.

    [seeks path (j, h) (j', h')]: turns of the loop of [AdvanceToLocation]
    lead from the first state to the second. A turn is taken while the scan
    path is less than [path]; it advances the scanner, or, the buffer being
    exhausted, seeks the parent cursor to the key of [path], fetches the leaf
    under it, and starts a scanner on the value of the leaf from the key of
    its predecessor. *)
Inductive seeks (path : jsonLocation)
    : JsonCursor * heap -> JsonCursor * heap -> Prop :=
  | seeks_done j h :
      ~ compareJsonLocations (currentPath (jsonScanner j)) path < 0 ->
      seeks path (j, h) (j, h)
  | seeks_scan j h s st :
      compareJsonLocations (currentPath (jsonScanner j)) path < 0 ->
      scanner_AdvanceToNextLocation (jsonScanner j) = (None, s) ->
      seeks path (set_scanner s j, h) st ->
      seeks path (j, h) st
  | seeks_fetch j h s c h1 c1 ref n h2 previousKey h3 v st :
      compareJsonLocations (currentPath (jsonScanner j)) path < 0 ->
      scanner_AdvanceToNextLocation (jsonScanner j) = (Some io_EOF, s) ->
      load (cur j) h = Ret (c, h) ->
      Seek (parent c) (key path) h = Ret (None, h1) ->
      load (cur j) h1 = Ret (c1, h1) ->
      currentRef (parent c1) h1 = Ret (ref, h1) ->
      fetchChild (nrw c1) ref = (n, None) ->
      modify (cur j) (set_nd n) h1 = Ret (tt, h2) ->
      getPreviousKey (cur j) h2 = Ret (previousKey, None, h3) ->
      currentValue (cur j) h3 = Ret (v, h3) ->
      seeks path (set_scanner (ScanJsonFromMiddleWithKey v previousKey) j, h3) st ->
      seeks path (j, h) st.

(** [JsonCursor.Valid]. *)
Definition JsonCursor_Valid (j : JsonCursor) : M bool := Valid (cur j).

(** Go's index expression [b[i]]; out of range it panics. *)
Definition at_index (b : bytes) (i : Z) : exec Byte.byte :=
  if (0 <=? i) && (i <? Z.of_nat (length b)) then
    match b !! Z.to_nat i with
    | Some x => Ret x
    | None => Panic index_out_of_range
    end
  else Panic index_out_of_range.

Definition nextCharacter (j : JsonCursor) : exec Byte.byte :=
  at_index (jsonBuffer (jsonScanner j)) (valueOffset (jsonScanner j)).

(** [scans path n s s']: [n] calls of the scanner's own
    [AdvanceToNextLocation], each made while the scan path is less than
    [path] and each returning a nil error, lead from [s] to [s'], whose path
    is not less than [path]. The scanner stays inside its buffer. *)
Inductive scans (path : jsonLocation) : nat -> JsonScanner -> JsonScanner -> Prop :=
  | scans_done s :
      ~ compareJsonLocations (currentPath s) path < 0 ->
      scans path 0 s s
  | scans_step n s s1 s' :
      compareJsonLocations (currentPath s) path < 0 ->
      scanner_AdvanceToNextLocation s = (None, s1) ->
      scans path n s1 s' ->
      scans path (S n) s s'.

End Cursor.
End Json.

(** ** A reference scanner

    The document scanner, the location ordering and [Seek] are not among
    the sources. This module implements the interface above for a fragment
    of JSON, after sections 3, 4.2, 4.3 and 6 of the specification, to run
    the cursor on concrete trees. A document of the fragment is a string,
    or an array of strings that is not empty; a string holds no quote, no
    comma and no bracket. A chunk of a document ends between two tokens:
    after a string, a comma or a bracket. *)

Module Reference.
Import Tree Json.

Definition quote : Byte.byte := Byte.x22.
Definition lbracket : Byte.byte := Byte.x5b.
Definition rbracket : Byte.byte := Byte.x5d.
Definition comma : Byte.byte := Byte.x2c.

(** Modelled from the spec: [jsonLocation], missing from the sources
    (section 3): a path of array indices and the offset reached within the
    value at that path; offset 0 is the start of the value. *)
Record location : Type := {
  path : list nat;
  offset : Z;
}.

(** Modelled from the spec: [compareJsonLocations], missing from the
    sources (section 4.2). Paths are compared element by element, a strict
    prefix sorting before its extensions; equal paths are ordered by
    offset. *)
Fixpoint comparePaths (a b : list nat) : Z :=
  match a, b with
  | [], [] => 0
  | [], _ :: _ => -1
  | _ :: _, [] => 1
  | x :: a', y :: b' =>
      if (x <? y)%nat then -1
      else if (y <? x)%nat then 1
      else comparePaths a' b'
  end.

Definition compareLocations (a b : location) : Z :=
  let c := comparePaths (path a) (path b) in
  if c =? 0 then
    if offset a <? offset b then -1
    else if offset b <? offset a then 1
    else 0
  else c.

(** The key of a location: one byte for the offset, then one per index. *)
Definition byteOf (n : N) : Byte.byte :=
  default Byte.x00 (Byte.of_N (n mod 256)%N).

Definition locationKey (l : location) : bytes :=
  byteOf (Z.to_N (offset l)) :: map (fun i => byteOf (N.of_nat i)) (path l).

Definition locationOfKey (k : option bytes) : location :=
  match k with
  | Some (o :: p) =>
      {| path := map (fun b => N.to_nat (Byte.to_N b)) p;
         offset := Z.of_N (Byte.to_N o) |}
  | _ => {| path := []; offset := 0 |}
  end.

(** Modelled from the spec: [JsonScanner], missing from the sources
    (section 3): the buffer, the scan offset in it and the current
    location. *)
Record scanner : Type := {
  s_buffer : bytes;
  s_offset : Z;
  s_path : location;
}.

Definition invalid_json : error := Errorf "invalid JSON".

Definition moved (s : scanner) (n : Z) (l : location) : scanner :=
  {| s_buffer := s_buffer s; s_offset := s_offset s + n; s_path := l |}.

(** The number of bytes up to and including the first quote, and whether
    there is one. *)
Fixpoint untilQuote (l : bytes) : nat * bool :=
  match l with
  | [] => (O, false)
  | b :: l' =>
      if Byte.eqb b quote then (1%nat, true)
      else let '(n, found) := untilQuote l' in (S n, found)
  end.

(** Moving past a string whose opening quote is the byte at the offset;
    [l] holds the bytes after that quote. A string that does not end in the
    buffer is no token of a chunk, and the step fails. *)
Definition scanString (s : scanner) (l : bytes) : option error * scanner :=
  let '(n, closed) := untilQuote l in
  let n := 1 + Z.of_nat n in
  if closed then
    (None, moved s n {| path := path (s_path s); offset := offset (s_path s) + n |})
  else (Some invalid_json, s).

Definition nextSibling (p : list nat) : option (list nat) :=
  match rev p with
  | i :: up => Some (rev (S i :: up))
  | [] => None
  end.

(** Modelled from the spec: [JsonScanner.AdvanceToNextLocation], missing
    from the sources (section 4.3). It fails with [io.EOF] when it is called
    with the bytes of the buffer exhausted, and only then. Otherwise one step
    enters the first element of an array, moves past a string, moves on to
    the next element, or moves past the closing bracket, one byte further in
    the last element's location; on any other byte it fails with an error of
    the document, and the scanner stays where it is. *)
Definition scan (s : scanner) : option error * scanner :=
  match drop (Z.to_nat (s_offset s)) (s_buffer s) with
  | [] => (Some io_EOF, s)
  | b :: rest =>
      if offset (s_path s) =? 0 then
        if Byte.eqb b lbracket then
          (None, moved s 1 {| path := path (s_path s) ++ [O]; offset := 0 |})
        else if Byte.eqb b quote then scanString s rest
        else (Some invalid_json, s)
      else if Byte.eqb b comma then
        match nextSibling (path (s_path s)) with
        | Some p => (None, moved s 1 {| path := p; offset := 0 |})
        | None => (Some invalid_json, s)
        end
      else if Byte.eqb b rbracket then
        (None, moved s 1 {| path := path (s_path s); offset := offset (s_path s) + 1 |})
      else (Some invalid_json, s)
  end.

(** Modelled from the spec: [atStartOfValue], [ScanJsonFromMiddle] and
    [ScanJsonFromMiddleWithKey], missing from the sources (section 4.3); a
    scanner made from the middle starts at offset 0 of its buffer with the
    location it is given, or the one its key encodes, the nil key encoding
    the start of the document. *)
Definition scanning : Scanning := {|
  jsonLocation := location;
  key := locationKey;
  compareJsonLocations := compareLocations;
  JsonScanner := scanner;
  jsonBuffer := s_buffer;
  valueOffset := s_offset;
  currentPath := s_path;
  atStartOfValue := fun s => offset (s_path s) =? 0;
  scanner_AdvanceToNextLocation := scan;
  ScanJsonFromMiddle := fun b p => {| s_buffer := b; s_offset := 0; s_path := p |};
  ScanJsonFromMiddleWithKey := fun b k =>
    {| s_buffer := b; s_offset := 0; s_path := locationOfKey k |};
|}.

(** Modelled from the spec: [Seek], missing from the sources (section 6),
    for a cursor at the root level. It repositions the cursor within its
    node: on the first entry whose key is not less than the target, or past
    the end when there is none. *)
Fixpoint searchFrom (i : Z) (target : location) (es : list (Item * Item)) : Z :=
  match es with
  | [] => i
  | (k, _) :: es' =>
      if compareLocations (locationOfKey (Some k)) target <? 0
      then searchFrom (i + 1) target es'
      else i
  end.

Definition seekInNode (p : ptr) (k : bytes) : M (option error) :=
  c ← load p;
  _ ← modify p (set_idx (searchFrom 0 (locationOfKey (Some k)) (entries (nd c))));
  mret None.

Definition seeking : Seeking := {| Seek := seekInNode |}.

End Reference.

(** ** Concrete trees *)

Module Examples.
Import Tree Json Reference.

#[local] Existing Instance scanning.
#[local] Existing Instance seeking.

(** A tree of two levels: the root refers to one leaf per chunk, under the
    key of the location at which the chunk ends, and each leaf holds its
    chunk as its only entry. The reference of chunk number [i] is the byte
    [i]. *)
Definition leafOf (kv : Item * Item) : Node := {| entries := [kv]; isLeaf := true |}.

Definition refOf (i : nat) : Item := [byteOf (N.of_nat i)].

Definition rootOf (chunks : list (Item * Item)) : Node :=
  {| entries := imap (fun i kv => (fst kv, refOf i)) chunks; isLeaf := false |}.

Definition storeOf (chunks : list (Item * Item)) : NodeStore := fun ref =>
  match ref with
  | [b] =>
      match chunks !! N.to_nat (Byte.to_N b) with
      | Some kv => inr (leafOf kv)
      | None => inl (Errorf "chunk not found")
      end
  | _ => inl (Errorf "chunk not found")
  end.

(** The cursor objects of a document cursor standing on chunk [i]: the root
    level at address 0 and the leaf level at address 1. *)
Definition rootCursor (chunks : list (Item * Item)) (i : nat) : cursor :=
  {| nd := rootOf chunks; idx := Z.of_nat i; parent := None; nrw := storeOf chunks |}.

Definition leafCursor (chunks : list (Item * Item)) (kv : Item * Item) : cursor :=
  {| nd := leafOf kv; idx := 0; parent := Some O; nrw := storeOf chunks |}.

Definition heapAt (chunks : list (Item * Item)) (i : nat) : heap :=
  match chunks !! i with
  | Some kv => [ rootCursor chunks i; leafCursor chunks kv ]
  | None => []
  end.

Definition cursorAt (chunk : Item) (at_ : Z) (l : location) : JsonCursor :=
  {| cur := Some 1%nat;
     jsonScanner := {| s_buffer := chunk; s_offset := at_; s_path := l |} |}.

Definition at_root : location := {| path := []; offset := 0 |}.

Definition keyAt (p : list nat) (o : Z) : Item := locationKey {| path := p; offset := o |}.

(** The document [["ab","cd"]]: whole, cut after its first element, and
    cut after its comma. *)
Definition ab : bytes := quote :: bs "ab" ++ [quote].
Definition cd : bytes := quote :: bs "cd" ++ [quote].
Definition ef : bytes := quote :: bs "ef" ++ [quote].

Definition pair : bytes := lbracket :: ab ++ comma :: cd ++ [rbracket].

Definition pair_whole : list (Item * Item) := [ (keyAt [1%nat] 5, pair) ].

Definition pair_split : list (Item * Item) :=
  [ (keyAt [O] 4, lbracket :: ab);
    (keyAt [1%nat] 5, comma :: cd ++ [rbracket]) ].


(** The document [["ab","cd","ef"]], cut after its first and after its
    second element. *)
Definition triple : bytes :=
  lbracket :: ab ++ comma :: cd ++ comma :: ef ++ [rbracket].

Definition triple_split : list (Item * Item) :=
  [ (keyAt [O] 4, lbracket :: ab);
    (keyAt [1%nat] 4, comma :: cd);
    (keyAt [2%nat] 5, comma :: ef ++ [rbracket]) ].

(** Cursors on these documents: at the start of the first element of the
    pair, at the end of that element, which is the end of the first chunk,
    and at the end of the last chunk. *)
Definition first_of_pair : JsonCursor :=
  cursorAt (lbracket :: ab) 1 {| path := [O]; offset := 0 |}.

Definition after_first_of_pair : JsonCursor :=
  cursorAt (lbracket :: ab) 5 {| path := [O]; offset := 4 |}.

Definition second_of_pair : location := {| path := [1%nat]; offset := 0 |}.

Definition end_of_pair : JsonCursor :=
  cursorAt (comma :: cd ++ [rbracket]) 6 {| path := [1%nat]; offset := 5 |}.

(** A leaf with two entries under a root with one, the cursor on the
    second entry of the leaf. *)
Definition wide_leaf : Node :=
  {| entries := [ (bs "k1", bs "v1"); (bs "k2", bs "v2") ]; isLeaf := true |}.

Definition wide_root : Node :=
  {| entries := [ (bs "k2", refOf O) ]; isLeaf := false |}.

Definition wide_store : NodeStore := fun _ => inr wide_leaf.

Definition wide_heap : heap :=
  [ {| nd := wide_root; idx := 0; parent := None; nrw := wide_store |};
    {| nd := wide_leaf; idx := 1; parent := Some O; nrw := wide_store |} ].

(** A document of one chunk whose root node is the leaf itself, the cursor
    on its second entry. *)
Definition lone_heap : heap :=
  [ {| nd := wide_leaf; idx := 1; parent := None; nrw := wide_store |} ].

(** The array [["ab",] that ends after its first comma, in one chunk. *)
Definition open_array : list (Item * Item) :=
  [ (keyAt [1%nat] 0, lbracket :: ab ++ [comma]) ].

Definition end_of_open_array : JsonCursor :=
  cursorAt (lbracket :: ab ++ [comma]) 6 second_of_pair.

(** A stand-in for [newCursorAtKey] on these trees: the root cursor on the
    first entry whose key is not less than the target and, under an internal
    root, the leaf cursor on the first entry of the child. *)
Definition cursorAtKey (ns : NodeStore) (root : Node) (k : bytes) : M (ptr * option error) :=
  let i := searchFrom 0 (locationOfKey (Some k)) (entries root) in
  r ← alloc {| nd := root; idx := i; parent := None; nrw := ns |};
  if isLeaf root then mret (r, None)
  else
    match entries root !! Z.to_nat i with
    | None => mret (None, Some (Errorf "key past the end"))
    | Some e =>
        let '(n, err) := fetchChild ns e.2 in
        match err with
        | Some e => mret (None, Some e)
        | None =>
            p ← alloc {| nd := n; idx := 0; parent := r; nrw := ns |};
            mret (p, None)
        end
    end.

(** The location whose key is the second key of [wide_leaf]. *)
Definition at_k2 : location := locationOfKey (Some (bs "k2")).

(** The cursor on the second chunk of the pair, with a node store that
    has lost its chunks. *)
Definition lost_store : NodeStore := fun _ => inl (Errorf "chunk not found").

Definition lost_leafCursor : cursor :=
  {| nd := leafOf (keyAt [1%nat] 5, comma :: cd ++ [rbracket]); idx := 0;
     parent := Some O; nrw := lost_store |}.

Definition lost_heap : heap := [ rootCursor pair_split 1; lost_leafCursor ].

End Examples.


(** * Properties *)

(** [mred] unfolds the sequencing of the two monads. *)
Ltac mred :=
  repeat progress (unfold mbind, mret, Tree.M_bind, Tree.M_ret, Tree.panic, Tree.diverge;
                   cbn beta iota).

(** ** Table hashes *)

Section EnvFacts.
Import Env.

Lemma mapTableHashes_range_absent root pre name post h m :
  Forall (fun n => (GetTableHash root n).2 = None) pre ->
  GetTableHash root name = (h, false, None) ->
  mapTableHashes_range root (pre ++ name :: post) m = Panic mismatch.
Proof.
  intros Hpre Hname. revert m.
  induction Hpre as [|n pre Hn _ IH]; intros m; simpl.
  - by rewrite Hname.
  - destruct (GetTableHash root n) as [[hn ok] err]. simpl in Hn. subst err.
    destruct ok; simpl; [apply IH | done].
Qed.

(** C9 (amended). When [GetTableHash] reports, with a nil error, that a
    name returned by [GetTableNames] is absent, and no call of
    [GetTableHash] for an earlier name returned an error, [mapTableHashes]
    panics with its message; it returns nothing to its caller, and no error
    value is made for the mismatch. *)
Theorem mapTableHashes_absent_panics root pre name post h :
  GetTableNames root = (pre ++ name :: post, None) ->
  Forall (fun n => (GetTableHash root n).2 = None) pre ->
  GetTableHash root name = (h, false, None) ->
  mapTableHashes root = Panic mismatch.
Proof.
  intros Hnames Hpre Hname. unfold mapTableHashes. rewrite Hnames.
  by apply mapTableHashes_range_absent with h.
Qed.

End EnvFacts.

(** ** The tree cursor and [getPreviousKey] *)

Section TreeFacts.
Import Tree Position.

Lemma chain_lt h p l cs : chain h p l cs -> Forall (fun a => (a < length h)%nat) l.
Proof.
  induction 1 as [|a c l cs Ha _ IH _]; constructor; [|done].
  by apply lookup_lt_Some in Ha.
Qed.

Lemma chain_NoDup h p l cs : chain h p l cs -> NoDup l.
Proof. induction 1; constructor; done. Qed.

Lemma chain_bound h p l cs : chain h p l cs -> (length l <= length h)%nat.
Proof.
  intros Hc. trans (length (seq 0 (length h))); [|by rewrite length_seq].
  apply submseteq_length, NoDup_submseteq; [by eapply chain_NoDup|].
  intros a Ha. apply elem_of_seq.
  pose proof (chain_lt _ _ _ _ Hc) as Hlt. rewrite Forall_forall in Hlt.
  specialize (Hlt a Ha). lia.
Qed.

Lemma chain_frame h h' p l cs :
  chain h p l cs -> (forall a, a ∈ l -> h' !! a = h !! a) -> chain h' p l cs.
Proof.
  induction 1 as [|a c l cs Ha _ IH Hni]; intros Hsame; constructor; try done.
  - rewrite Hsame; [done | by left].
  - apply IH. intros b Hb. apply Hsame. by right.
Qed.

Lemma chain_nonnil h a l cs : chain h (Some a) l cs ->
  exists c l' cs', l = a :: l' /\ cs = c :: cs' /\ h !! a = Some c /\
    chain h (parent c) l' cs' /\ a ∉ l'.
Proof. inversion 1; subst. eauto 10. Qed.

Lemma valid_entry (c : cursor) : valid c = true ->
  exists e, entries (nd c) !! Z.to_nat (idx c) = Some e.
Proof.
  unfold valid, count. intros Hv. apply andb_prop in Hv as [H0 H1].
  apply lookup_lt_is_Some. lia.
Qed.

Lemma l_entry_of (c : cursor) :
  l_entry (level_of c) = if valid c then entries (nd c) !! Z.to_nat (idx c) else None.
Proof. reflexivity. Qed.

Lemma load_eq h a c : h !! a = Some c -> load (Some a) h = Ret (c, h).
Proof. intros H. unfold load. by rewrite H. Qed.

Lemma modify_eq h a c f :
  h !! a = Some c -> modify (Some a) f h = Ret (tt, <[a := f c]> h).
Proof. intros H. unfold modify. by rewrite H. Qed.

Lemma Valid_eq h a c : h !! a = Some c -> Valid (Some a) h = Ret (valid c, h).
Proof. intros H. unfold Valid. mred. by rewrite (load_eq _ _ _ H). Qed.

Lemma currentEntry_eq h a c e :
  h !! a = Some c -> valid c = true ->
  entries (nd c) !! Z.to_nat (idx c) = Some e ->
  currentEntry (Some a) h = Ret (e, h).
Proof.
  intros H Hv He. unfold currentEntry. mred.
  by rewrite (load_eq _ _ _ H), Hv, He.
Qed.

Lemma currentEntry_invalid h a c :
  h !! a = Some c -> valid c = false ->
  currentEntry (Some a) h = Panic index_out_of_range.
Proof.
  intros H Hv. unfold currentEntry. mred. by rewrite (load_eq _ _ _ H), Hv.
Qed.

Lemma currentValue_eq h a c e :
  h !! a = Some c -> valid c = true ->
  entries (nd c) !! Z.to_nat (idx c) = Some e ->
  currentValue (Some a) h = Ret (e.2, h).
Proof.
  intros H Hv He. unfold currentValue. mred.
  by rewrite (currentEntry_eq _ _ _ _ H Hv He).
Qed.

Lemma chain_insert h a c c' l cs :
  h !! a = Some c -> parent c' = parent c ->
  chain h (Some a) (a :: l) (c :: cs) ->
  chain (<[a := c']> h) (Some a) (a :: l) (c' :: cs).
Proof.
  intros Ha Hpar Hc. inversion Hc; subst.
  constructor; [| |done].
  - apply list_lookup_insert_eq. by apply lookup_lt_Some in Ha.
  - rewrite Hpar. eapply chain_frame; [eassumption|].
    intros b Hb. apply list_lookup_insert_ne. intros ->. done.
Qed.

Lemma insert_frame (h : heap) a c' (l : list nat) :
  forall b, b ∉ a :: l -> <[a := c']> h !! b = h !! b.
Proof. intros b Hb. apply list_lookup_insert_ne. intros ->. apply Hb. by left. Qed.

Lemma retreat_rec_levels l : forall h a cs fuel,
  chain h (Some a) l cs -> (length l <= fuel)%nat ->
  exists h' cs',
    retreat_rec fuel (Some a) h = Ret ((retreat_levels (level_of <$> cs)).1, h') /\
    chain h' (Some a) l cs' /\
    level_of <$> cs' = (retreat_levels (level_of <$> cs)).2 /\
    length h' = length h /\
    forall b, b ∉ l -> h' !! b = h !! b.
Proof.
  induction l as [|a0 l IH]; intros h a cs fuel Hc Hfuel.
  { inversion Hc. }
  pose proof Hc as Hc0.
  apply chain_nonnil in Hc as (c & l' & cs' & [= -> ->] & -> & Ha & Hup & Hni).
  destruct fuel as [|fuel]; [simpl in Hfuel; lia|]. simpl in Hfuel.
  cbn [retreat_rec fmap list_fmap retreat_levels]. mred.
  rewrite (load_eq _ _ _ Ha). cbn [level_of l_idx l_nd l_nrw].
  destruct (0 <? idx c) eqn:Hpos.
  - (* the previous entry of the same node *)
    rewrite (modify_eq _ _ _ _ Ha).
    eexists _, (set_idx (idx c - 1) c :: cs'). split; [reflexivity|].
    split; [by eapply chain_insert|]. split; [reflexivity|].
    split; [by rewrite length_insert | apply insert_frame].
  - destruct (parent c) as [q|] eqn:Hpar.
    + (* retreat the parent *)
      pose proof Hup as Hup'.
      apply chain_nonnil in Hup' as (cq & l1 & cs1 & -> & -> & Hq & _ & _).
      destruct (IH h q (cq :: cs1) fuel Hup ltac:(lia))
        as (h1 & cs1' & Hrun & Hc1 & Hlv & Hlen & Hframe).
      rewrite Hrun.
      change (level_of cq :: list_fmap cursor level level_of cs1)
        with (level_of <$> cq :: cs1).
      destruct (retreat_levels (level_of <$> cq :: cs1)) as [err up'] eqn:Hpure.
      cbn [fst snd] in *.
      assert (Ha1 : h1 !! a = Some c) by (rewrite Hframe; done).
      assert (Hc1a : chain h1 (Some a) (a :: q :: l1) (c :: cs1')).
      { constructor; [done | by rewrite Hpar | done]. }
      assert (Hframe' : forall b, b ∉ a :: q :: l1 -> h1 !! b = h !! b).
      { intros b Hb. apply Hframe. intros Hb'. apply Hb. by right. }
      destruct err as [e|].
      { eexists h1, (c :: cs1'). split; [reflexivity|].
        split; [done|]. split; [|done]. cbn. by rewrite Hlv. }
      pose proof Hc1 as Hc1'.
      apply chain_nonnil in Hc1' as (cq' & l1' & cs1'' & [= <-] & -> & Hq1 & _ & _).
      rewrite (Valid_eq _ _ _ Hq1). cbn in Hlv. subst up'.
      cbn [head mbind option_bind]. rewrite l_entry_of.
      destruct (valid cq') eqn:Hval; cbn [negb].
      * destruct (valid_entry _ Hval) as [e He].
        unfold currentRef. rewrite (currentValue_eq _ _ _ _ Hq1 Hval He), He.
        destruct (fetchChild (nrw c) e.2) as [n [e'|]] eqn:Hfetch.
        { eexists h1, (c :: cq' :: cs1''). by split; [reflexivity|]. }
        rewrite (modify_eq _ _ _ _ Ha1).
        eexists _, (set_idx (count n - 1) (set_nd n c) :: cq' :: cs1'').
        split; [reflexivity|]. split; [by eapply chain_insert|].
        split; [reflexivity|]. split; [by rewrite length_insert|].
        intros b Hb. erewrite insert_frame; eauto.
      * rewrite (modify_eq _ _ _ _ Ha1).
        eexists _, (set_idx (-1) c :: cq' :: cs1'').
        split; [reflexivity|]. split; [by eapply chain_insert|].
        split; [reflexivity|]. split; [by rewrite length_insert|].
        intros b Hb. erewrite insert_frame; eauto.
    + (* no parent: before the start *)
      inversion Hup; subst. rewrite (modify_eq _ _ _ _ Ha). cbn.
      eexists _, [set_idx (-1) c]. split; [reflexivity|].
      split; [by eapply chain_insert|]. split; [reflexivity|].
      split; [by rewrite length_insert | apply insert_frame].
Qed.

Lemma clone_rec_spec l : forall h a cs fuel,
  chain h (Some a) l cs -> (length l <= fuel)%nat ->
  exists a' l' cs' cl,
    clone_rec fuel (Some a) h = Ret (Some a', h ++ cl) /\
    chain (h ++ cl) (Some a') l' cs' /\
    level_of <$> cs' = level_of <$> cs /\
    Forall (fun b => (length h <= b)%nat) l'.
Proof.
  induction l as [|a0 l IH]; intros h a cs fuel Hc Hfuel.
  { inversion Hc. }
  apply chain_nonnil in Hc as (c & l' & cs' & [= -> ->] & -> & Ha & Hup & Hni).
  destruct fuel as [|fuel]; [simpl in Hfuel; lia|]. simpl in Hfuel.
  cbn [clone_rec]. mred. rewrite (load_eq _ _ _ Ha).
  destruct (parent c) as [q|] eqn:Hpar.
  - pose proof Hup as Hup'.
    apply chain_nonnil in Hup' as (cq & l1 & cs1 & -> & -> & Hq & _ & _).
    destruct (IH h q (cq :: cs1) fuel Hup ltac:(lia))
      as (q' & l1' & cs1' & cl & Hrun & Hc1 & Hlv & Hfresh).
    rewrite Hrun. unfold alloc.
    set (c0 := {| nd := nd c; idx := idx c; parent := Some q'; nrw := nrw c |}).
    exists (length (h ++ cl)), (length (h ++ cl) :: l1'), (c0 :: cs1'), (cl ++ [c0]).
    rewrite (assoc_L (++)). split; [reflexivity|].
    pose proof (chain_lt _ _ _ _ Hc1) as Hlt1.
    split; [|split].
    + constructor.
      * by apply list_lookup_middle.
      * eapply chain_frame; [exact Hc1|]. intros b Hb.
        rewrite Forall_forall in Hlt1. apply lookup_app_l. by apply Hlt1.
      * intros Hin. rewrite Forall_forall in Hlt1. specialize (Hlt1 _ Hin). lia.
    + cbn. rewrite Hlv. reflexivity.
    + constructor; [rewrite length_app; lia | done].
  - inversion Hup; subst. unfold alloc.
    set (c0 := {| nd := nd c; idx := idx c; parent := None; nrw := nrw c |}).
    exists (length h), [length h], [c0], [c0]. split; [reflexivity|].
    split; [|split; [reflexivity|]].
    + constructor; [by apply list_lookup_middle | constructor | apply not_elem_of_nil].
    + constructor; [lia | constructor].
Qed.

Lemma prefix_kept (h h2 : heap) :
  (length h <= length h2)%nat ->
  (forall b, (b < length h)%nat -> h2 !! b = h !! b) ->
  exists cl, h2 = h ++ cl.
Proof.
  intros Hlen Hsame. exists (drop (length h) h2).
  rewrite <- (take_drop (length h) h2) at 1. f_equal.
  apply list_eq. intros i. destruct (decide (i < length h)%nat) as [Hi|Hi].
  - rewrite lookup_take_lt by done. by apply Hsame.
  - rewrite lookup_take_ge by lia. symmetry. apply lookup_ge_None. lia.
Qed.


(** Cloning a cursor and retreating the clone: both return, the store
    only grows, and the levels of the clone are those of the cursor after
    [retreat_levels]. *)
Lemma clone_retreat h a l cs :
  chain h (Some a) l cs ->
  exists a' l' cs' cl1 cl2,
    clone (Some a) h = Ret (Some a', h ++ cl1) /\
    retreat (Some a') (h ++ cl1) =
      Ret ((retreat_levels (level_of <$> cs)).1, h ++ cl2) /\
    chain (h ++ cl2) (Some a') l' cs' /\
    level_of <$> cs' = (retreat_levels (level_of <$> cs)).2.
Proof.
  intros Hc. unfold clone, retreat.
  destruct (clone_rec_spec _ _ _ _ _ Hc (chain_bound _ _ _ _ Hc))
    as (a' & l' & cs' & cl & Hclone & Hc1 & Hlv & Hfresh).
  destruct (retreat_rec_levels _ _ _ _ _ Hc1 (chain_bound _ _ _ _ Hc1))
    as (h2 & cs2 & Hrun & Hc2 & Hlv2 & Hlen & Hframe).
  rewrite Hlv in *.
  destruct (prefix_kept h h2) as [cl2 ->].
  { rewrite Hlen, length_app. lia. }
  { intros b Hb. rewrite Hframe.
    - by apply lookup_app_l.
    - intros Hin. rewrite Forall_forall in Hfresh. specialize (Hfresh _ Hin). lia. }
  by exists a', l', cs2, cl, cl2.
Qed.

Lemma getPreviousKey_levels h a l cs :
  chain h (Some a) l cs ->
  on_heap h (Json.getPreviousKey (Some a) h) (previousKey_levels (level_of <$> cs)).
Proof.
  intros Hc. unfold Json.getPreviousKey, previousKey_levels. mred.
  destruct (clone_retreat _ _ _ _ Hc)
    as (a' & l' & cs2 & cl & cl2 & Hclone & Hrun & Hc2 & Hlv2).
  rewrite Hclone, Hrun.
  destruct (retreat_levels (level_of <$> cs)) as [err lv'].
  cbn [fst snd] in *. destruct err as [e|]; [by exists cl2|].
  apply chain_nonnil in Hc2 as (c2 & l2 & cs2' & -> & -> & Ha2 & Hup2 & _).
  cbn in Hlv2. subst lv'. rewrite (Valid_eq _ _ _ Ha2).
  change (l_valid (level_of c2)) with (valid c2).
  destruct (valid c2); [|by exists cl2].
  rewrite (load_eq _ _ _ Ha2).
  inversion Hup2 as [Hp|q cq l3 cs3 Hq Hup3 Hni Hp]; subst; cbn.
  - reflexivity.
  - rewrite l_entry_of. unfold CurrentKey. mred.
    destruct (valid cq) eqn:Hval.
    + destruct (valid_entry _ Hval) as [e He].
      rewrite (currentEntry_eq _ _ _ _ Hq Hval He), He. by exists cl2.
    + by rewrite (currentEntry_invalid _ _ _ Hq Hval).
Qed.

Lemma below_app ns d (a b : list (Item * Item)) :
  below ns d (a ++ b) = below ns d a ++ below ns d b.
Proof.
  induction d as [|d IH]; [done|]. cbn [below]. rewrite IH. apply bind_app.
Qed.

Lemma below_bind ns d (es : list (Item * Item)) :
  below ns d (es ≫= children ns) = below ns d es ≫= children ns.
Proof. induction d as [|d IH]; [done|]. cbn [below]. by rewrite IH. Qed.

Lemma below_cons ns d e (es : list (Item * Item)) :
  below ns (S d) (e :: es) = below ns d (children ns e) ++ below ns (S d) es.
Proof.
  change (below ns (S d) (e :: es)) with (below ns d (e :: es) ≫= children ns).
  rewrite <- below_bind. cbn. rewrite below_app. f_equal.
  by rewrite below_bind.
Qed.

Lemma l_entry_Some a e :
  l_entry a = Some e ->
  l_valid a = true /\ entries (l_nd a) !! Z.to_nat (l_idx a) = Some e.
Proof. unfold l_entry. destruct (l_valid a); [done | discriminate]. Qed.

Lemma beforeAt_position ns lv : forall d c up root,
  lv = c :: up -> linked ns lv -> last lv = Some root ->
  exists rest,
    below ns (d + length up) (entries (l_nd root)) =
    beforeAt ns d lv ++
    below ns d (drop (Z.to_nat (l_idx c)) (entries (l_nd c))) ++ rest.
Proof.
  induction lv as [|c0 up0 IH]; intros d c up root [= <- <-] Hlinked Hlast; [].
  destruct up0 as [|a up1].
  - cbn in Hlast. injection Hlast as <-. exists []. cbn [beforeAt length].
    rewrite Nat.add_0_r, app_nil_r, app_nil_l, <- below_app. by rewrite take_drop.
  - destruct Hlinked as [(e & He & Hch) Hlinked].
    destruct (IH (S d) a up1 root eq_refl Hlinked) as [rest Hrest].
    { by rewrite last_cons_cons in Hlast. }
    apply l_entry_Some in He as [Hva He].
    rewrite (drop_S _ _ _ He) in Hrest. rewrite below_cons in Hrest.
    unfold children in Hrest at 1. rewrite Hch in Hrest.
    rewrite <- (take_drop (Z.to_nat (l_idx c0)) (entries (l_nd c0))) in Hrest at 1.
    rewrite below_app in Hrest.
    eexists.
    change (beforeAt ns d (c0 :: a :: up1))
      with (beforeAt ns (S d) (a :: up1) ++
            below ns d (take (Z.to_nat (l_idx c0)) (entries (l_nd c0)))).
    cbn [length].
    replace (d + S (length up1))%nat with (S d + length up1)%nat by lia.
    rewrite Hrest. rewrite <- !(assoc_L (++)). reflexivity.
Qed.

(** The entries of the tree at the level of the cursor, read from left to
    right under the root, are the entries [before] the cursor, then those
    of the node of the cursor from its index on, then the rest. *)
Lemma before_position ns c up root :
  linked ns (c :: up) -> last (c :: up) = Some root ->
  exists rest,
    below ns (length up) (entries (l_nd root)) =
    before ns (c :: up) ++ drop (Z.to_nat (l_idx c)) (entries (l_nd c)) ++ rest.
Proof. intros Hl Hr. by apply (beforeAt_position ns (c :: up) O c up root). Qed.

Lemma beforeAt_S ns lv : forall d,
  beforeAt ns (S d) lv = beforeAt ns d lv ≫= children ns.
Proof.
  induction lv as [|c up IH]; intros d; [done|].
  cbn [beforeAt]. rewrite bind_app, <- IH. reflexivity.
Qed.

Lemma wfNode_nonempty ns H n : wfNode ns H n -> entries n <> [].
Proof. destruct H; simpl; tauto. Qed.

Lemma wfNode_child ns H n e :
  wfNode ns (S H) n -> e ∈ entries n ->
  exists ch, ns e.2 = inr ch /\ wfNode ns H ch /\ fst <$> last (entries ch) = Some e.1.
Proof.
  intros [_ Hall] He. rewrite Forall_forall in Hall. by apply Hall.
Qed.

Lemma take_last_entry (es : list (Item * Item)) :
  es <> [] ->
  exists e, es !! Z.to_nat (Z.of_nat (length es) - 1) = Some e /\
            last es = Some e /\
            take (Z.to_nat (Z.of_nat (length es) - 1)) es ++ [e] = es.
Proof.
  intros Hne. destruct (last es) as [e|] eqn:Hlast.
  - exists e. rewrite last_lookup in Hlast.
    replace (Z.to_nat (Z.of_nat (length es) - 1)) with (pred (length es)) by lia.
    split; [done|]. split; [done|].
    rewrite <- (take_S_r _ _ _ Hlast). apply take_ge.
    destruct es; [done | simpl; lia].
  - apply last_None in Hlast. done.
Qed.

(** [retreat] moves a well-formed position back by one entry. *)
Lemma retreat_levels_before ns lv : forall H,
  wfLevels ns H lv -> lv <> [] ->
  exists lv',
    retreat_levels lv = (None, lv') /\
    match head lv' ≫= l_entry with
    | None => before ns lv = []
    | Some e => wfLevels ns H lv' /\ before ns lv = before ns lv' ++ [e]
    end.
Proof.
  induction lv as [|c up IH]; intros H Hwf Hne; [done|].
  destruct Hwf as (Hnode & Hvalid & Hnrw & Hup).
  assert (Hv := Hvalid). unfold l_valid in Hv. apply andb_prop in Hv as [H0 H1].
  cbn [retreat_levels]. destruct (0 <? l_idx c) eqn:Hpos.
  - (* the previous entry of the same node *)
    eexists. split; [reflexivity|]. cbn [head mbind option_bind].
    assert (Hlook : is_Some (entries (l_nd c) !! Z.to_nat (l_idx c - 1))).
    { apply lookup_lt_is_Some. unfold count in H1. lia. }
    destruct Hlook as [e He].
    unfold l_entry, l_valid. cbn [l_idx l_nd].
    replace ((0 <=? l_idx c - 1) && (l_idx c - 1 <? count (l_nd c))) with true
      by (symmetry; apply andb_true_intro; split; lia).
    rewrite He. split.
    + split; [done|]. split; [|done]. unfold l_valid. cbn [l_idx l_nd].
      apply andb_true_intro; split; lia.
    + unfold before. cbn [beforeAt below l_idx l_nd]. rewrite <- (assoc_L (++)).
      f_equal. rewrite <- (take_S_r _ _ _ He). f_equal. lia.
  - assert (Hidx : l_idx c = 0) by lia.
    assert (Hb : before ns (c :: up) = before ns up ≫= children ns).
    { unfold before. cbn [beforeAt below]. rewrite Hidx. cbn [Z.to_nat take].
      rewrite app_nil_r. apply beforeAt_S. }
    destruct up as [|a up0].
    + eexists. split; [reflexivity|]. rewrite Hb. reflexivity.
    + destruct (IH (S H) Hup ltac:(done)) as (up' & Hrun & Hcase).
      rewrite Hrun.
      destruct (head up' ≫= l_entry) as [e|] eqn:Hhead.
      * destruct Hcase as [Hwf' Hbefore].
        destruct up' as [|a' up'']; [done|]. cbn in Hhead.
        apply l_entry_Some in Hhead as Hhead'. destruct Hhead' as [Hva' Hea'].
        pose proof Hwf' as (Hnode' & _ & _ & Hup').
        destruct (wfNode_child _ _ _ e Hnode') as (ch & Hch & Hwfch & Hkey).
        { by eapply list_elem_of_lookup_2. }
        unfold fetchChild. rewrite Hnrw, Hch.
        eexists. split; [reflexivity|]. cbn [head mbind option_bind].
        destruct (take_last_entry (entries ch)) as (e' & He' & Hlast & Htake).
        { by eapply wfNode_nonempty. }
        assert (entries ch <> []) by (by eapply wfNode_nonempty).
        assert (0 < length (entries ch))%nat by (destruct (entries ch); [done|simpl; lia]).
        assert (Hvch : l_valid {| l_nd := ch; l_idx := count ch - 1; l_nrw := ns |} = true).
        { unfold l_valid, count. cbn [l_idx l_nd]. apply andb_true_intro; split; lia. }
        unfold l_entry. rewrite Hvch. cbn [l_idx l_nd]. unfold count at 1. rewrite He'.
        split; [done|].
        assert (Hb' : before ns ({| l_nd := ch; l_idx := count ch - 1; l_nrw := ns |}
                                   :: a' :: up'') =
                      (before ns (a' :: up'') ≫= children ns) ++
                      take (Z.to_nat (count ch - 1)) (entries ch)).
        { unfold before. cbn [beforeAt below l_idx l_nd]. rewrite beforeAt_S. by rewrite bind_app. }
        rewrite Hb, Hbefore, bind_app, Hb'. unfold count.
        rewrite <- (assoc_L (++)), Htake. f_equal.
        cbn. unfold children. rewrite Hch. by rewrite app_nil_r.
      * eexists. split; [reflexivity|]. rewrite Hb, Hcase. reflexivity.
Qed.

Lemma before_first ns c up :
  l_idx c = 0 -> before ns (c :: up) = before ns up ≫= children ns.
Proof.
  intros Hidx. unfold before. cbn [beforeAt below]. rewrite Hidx. cbn [Z.to_nat take].
  rewrite app_nil_r. apply beforeAt_S.
Qed.

Lemma previousKey_levels_before ns c up :
  wfLevels ns 0 (c :: up) -> l_idx c = 0 ->
  previousKey_levels (c :: up) = Ret (fst <$> last (before ns (c :: up)), None).
Proof.
  intros (Hnode & Hvalid & Hnrw & Hup) Hidx.
  rewrite (before_first _ _ _ Hidx).
  unfold previousKey_levels. cbn [retreat_levels]. rewrite Hidx.
  change (0 <? 0) with false. cbn iota.
  destruct up as [|a up0]; [reflexivity|].
  destruct (retreat_levels_before ns (a :: up0) 1 Hup ltac:(done)) as (up' & Hrun & Hcase).
  rewrite Hrun. destruct (head up' ≫= l_entry) as [e|] eqn:Hhead.
  - destruct Hcase as [Hwf' Hbefore].
    destruct up' as [|a' up'']; [done|]. cbn in Hhead.
    pose proof Hwf' as (Hnode' & _).
    apply l_entry_Some in Hhead as Hhead'. destruct Hhead' as [_ Hea'].
    destruct (wfNode_child _ _ _ e Hnode') as (ch & Hch & Hwfch & Hkey).
    { by eapply list_elem_of_lookup_2. }
    unfold fetchChild. rewrite Hnrw, Hch.
    assert (Hne : entries ch <> []) by (by eapply wfNode_nonempty).
    assert (0 < length (entries ch))%nat by (destruct (entries ch); [done|simpl; lia]).
    assert (Hvch : l_valid {| l_nd := ch; l_idx := count ch - 1; l_nrw := ns |} = true).
    { unfold l_valid, count. cbn [l_idx l_nd]. apply andb_true_intro; split; lia. }
    rewrite Hvch, Hhead, Hbefore, bind_app. f_equal. f_equal.
    rewrite last_app. cbn. unfold children. rewrite Hch, app_nil_r.
    destruct (last (entries ch)); [done | discriminate].
  - rewrite Hcase. reflexivity.
Qed.

(** Below a non-empty list of entries of a well-formed node there are entries. *)
Lemma wfNode_entries_ok ns K n : wfNode ns K n -> entries_ok ns K (entries n).
Proof.
  destruct K as [|K]; simpl; [done|]. intros [Hne Hall]. split; [done|].
  eapply Forall_impl; [exact Hall|]. intros e (ch & ? & ? & _). eauto.
Qed.

Lemma below_nil ns d : below ns d [] = [].
Proof. induction d as [|d IH]; [done|]. cbn [below]. by rewrite IH. Qed.

Lemma below_ok ns d : forall K es,
  (d <= K)%nat -> entries_ok ns K es -> entries_ok ns (K - d) (below ns d es).
Proof.
  induction d as [|d IH]; intros K es Hd Hok.
  { by rewrite Nat.sub_0_r. }
  cbn [below]. destruct (IH K es ltac:(lia) Hok) as [Hne Hall].
  replace (K - d)%nat with (S (K - S d)) in Hall by lia.
  destruct (below ns d es) as [|e es'] eqn:Hbelow; [done|].
  split.
  - apply Forall_cons in Hall as [(ch & Hch & Hwf) _].
    cbn. unfold children at 1. rewrite Hch.
    apply wfNode_nonempty in Hwf. destruct (entries ch); [done|]. done.
  - destruct (K - S d)%nat as [|K'] eqn:HK; [done|].
    apply Forall_forall. intros x Hx. apply list_elem_of_bind in Hx as (e0 & Hx & He0).
    rewrite Forall_forall in Hall. destruct (Hall _ He0) as (ch & Hch & Hwf).
    unfold children in Hx. rewrite Hch in Hx.
    destruct Hwf as [_ Hwf]. rewrite Forall_forall in Hwf.
    destruct (Hwf _ Hx) as (ch' & ? & ? & _). eauto.
Qed.

Lemma beforeAt_nil ns lv : forall H d,
  wfLevels ns H lv -> (d <= H)%nat ->
  beforeAt ns d lv = [] <-> Forall (fun a => l_idx a = 0) lv.
Proof.
  induction lv as [|c up IH]; intros H d Hwf Hd; [done|].
  destruct Hwf as (Hnode & Hvalid & Hnrw & Hup).
  cbn [beforeAt]. rewrite Forall_cons, app_nil, (IH (S H) (S d) Hup ltac:(lia)).
  unfold l_valid in Hvalid. apply andb_prop in Hvalid as [H0 H1].
  split; intros [H2 H3]; split; try done.
  - destruct (decide (l_idx c = 0)) as [|Hpos]; [done|]. exfalso.
    assert (Hok : entries_ok ns H (take (Z.to_nat (l_idx c)) (entries (l_nd c)))).
    { destruct (wfNode_entries_ok _ _ _ Hnode) as [Hne Hall]. split.
      - destruct (entries (l_nd c)); [done|].
        destruct (Z.to_nat (l_idx c)) eqn:Hn; [lia | done].
      - destruct H; [done|]. by apply Forall_take. }
    destruct (below_ok ns d H _ Hd Hok) as [Hne _]. done.
  - rewrite H2. cbn. apply below_nil.
Qed.
(** [advance] on a chain that ends returns, and acts on the levels of
    the chain as [advance_levels] does. *)
Lemma advance_rec_levels l : forall h a cs fuel,
  chain h (Some a) l cs -> (length l <= fuel)%nat ->
  exists h' cs',
    advance_rec fuel (Some a) h = Ret ((advance_levels (level_of <$> cs)).1, h') /\
    chain h' (Some a) l cs' /\
    level_of <$> cs' = (advance_levels (level_of <$> cs)).2 /\
    length h' = length h /\
    forall b, b ∉ l -> h' !! b = h !! b.
Proof.
  induction l as [|a0 l IH]; intros h a cs fuel Hc Hfuel.
  { inversion Hc. }
  pose proof Hc as Hc0.
  apply chain_nonnil in Hc as (c & l' & cs' & [= -> ->] & -> & Ha & Hup & Hni).
  destruct fuel as [|fuel]; [simpl in Hfuel; lia|]. simpl in Hfuel.
  cbn [advance_rec fmap list_fmap advance_levels]. mred.
  rewrite (load_eq _ _ _ Ha). cbn [level_of l_idx l_nd l_nrw].
  destruct (idx c <? count (nd c) - 1) eqn:Hpos.
  - rewrite (modify_eq _ _ _ _ Ha).
    eexists _, (set_idx (idx c + 1) c :: cs'). split; [reflexivity|].
    split; [by eapply chain_insert|]. split; [reflexivity|].
    split; [by rewrite length_insert | apply insert_frame].
  - destruct (parent c) as [q|] eqn:Hpar.
    + pose proof Hup as Hup'.
      apply chain_nonnil in Hup' as (cq & l1 & cs1 & -> & -> & Hq & _ & _).
      destruct (IH h q (cq :: cs1) fuel Hup ltac:(lia))
        as (h1 & cs1' & Hrun & Hc1 & Hlv & Hlen & Hframe).
      rewrite Hrun.
      change (level_of cq :: list_fmap cursor level level_of cs1)
        with (level_of <$> cq :: cs1).
      destruct (advance_levels (level_of <$> cq :: cs1)) as [err up'] eqn:Hpure.
      cbn [fst snd] in *.
      assert (Ha1 : h1 !! a = Some c) by (rewrite Hframe; done).
      assert (Hc1a : chain h1 (Some a) (a :: q :: l1) (c :: cs1')).
      { constructor; [done | by rewrite Hpar | done]. }
      assert (Hframe' : forall b, b ∉ a :: q :: l1 -> h1 !! b = h !! b).
      { intros b Hb. apply Hframe. intros Hb'. apply Hb. by right. }
      destruct err as [e|].
      { eexists h1, (c :: cs1'). split; [reflexivity|].
        split; [done|]. split; [|done]. cbn. by rewrite Hlv. }
      pose proof Hc1 as Hc1'.
      apply chain_nonnil in Hc1' as (cq' & l1' & cs1'' & [= <-] & -> & Hq1 & _ & _).
      rewrite (Valid_eq _ _ _ Hq1). cbn in Hlv. subst up'.
      cbn [head mbind option_bind]. rewrite l_entry_of.
      destruct (valid cq') eqn:Hval; cbn [negb].
      * destruct (valid_entry _ Hval) as [e He].
        unfold currentRef. rewrite (currentValue_eq _ _ _ _ Hq1 Hval He), He.
        destruct (fetchChild (nrw c) e.2) as [n [e'|]] eqn:Hfetch.
        { eexists h1, (c :: cq' :: cs1''). by split; [reflexivity|]. }
        rewrite (modify_eq _ _ _ _ Ha1).
        eexists _, (set_idx 0 (set_nd n c) :: cq' :: cs1'').
        split; [reflexivity|]. split; [by eapply chain_insert|].
        split; [reflexivity|]. split; [by rewrite length_insert|].
        intros b Hb. erewrite insert_frame; eauto.
      * rewrite (modify_eq _ _ _ _ Ha1).
        eexists _, (set_idx (count (nd c)) c :: cq' :: cs1'').
        split; [reflexivity|]. split; [by eapply chain_insert|].
        split; [reflexivity|]. split; [by rewrite length_insert|].
        intros b Hb. erewrite insert_frame; eauto.
    + inversion Hup; subst. rewrite (modify_eq _ _ _ _ Ha). cbn.
      eexists _, [set_idx (count (nd c)) c]. split; [reflexivity|].
      split; [by eapply chain_insert|]. split; [reflexivity|].
      split; [by rewrite length_insert | apply insert_frame].
Qed.

(** [advance] moves a well-formed position forward by one entry: the
    entries before the new position are the entries before the old one and
    the entry the cursor stood on. *)
Lemma advance_levels_next ns lv : forall H,
  wfLevels ns H lv -> linked ns lv -> lv <> [] ->
  exists lv',
    advance_levels lv = (None, lv') /\
    match head lv' ≫= l_entry with
    | None => True
    | Some e' =>
        wfLevels ns H lv' /\ linked ns lv' /\
        exists e, head lv ≫= l_entry = Some e /\ before ns lv' = before ns lv ++ [e]
    end.
Proof.
  induction lv as [|c up IH]; intros H Hwf Hlinked Hne; [done|].
  destruct Hwf as (Hnode & Hvalid & Hnrw & Hup).
  assert (Hv := Hvalid). unfold l_valid in Hv. apply andb_prop in Hv as [H0 H1].
  assert (Hcur : exists e, l_entry c = Some e /\
                   entries (l_nd c) !! Z.to_nat (l_idx c) = Some e).
  { unfold l_entry. rewrite Hvalid.
    destruct (entries (l_nd c) !! Z.to_nat (l_idx c)) as [e|] eqn:He; [eauto|].
    apply lookup_ge_None in He. unfold count in H1. lia. }
  destruct Hcur as (ec & Hec & Hlook).
  cbn [advance_levels]. destruct (l_idx c <? count (l_nd c) - 1) eqn:Hpos.
  - (* the next entry of the same node *)
    eexists. split; [reflexivity|]. cbn [head mbind option_bind].
    assert (Hlook' : is_Some (entries (l_nd c) !! Z.to_nat (l_idx c + 1))).
    { apply lookup_lt_is_Some. unfold count in *. lia. }
    destruct Hlook' as [e' He'].
    unfold l_entry at 1, l_valid. cbn [l_idx l_nd].
    replace ((0 <=? l_idx c + 1) && (l_idx c + 1 <? count (l_nd c))) with true
      by (symmetry; apply andb_true_intro; split; lia).
    rewrite He'. split; [|split].
    + split; [done|]. split; [|done]. unfold l_valid. cbn [l_idx l_nd].
      apply andb_true_intro; split; lia.
    + destruct up; [done|]. exact Hlinked.
    + exists ec. split; [done|].
      unfold before. cbn [beforeAt below l_idx l_nd]. rewrite <- (assoc_L (++)).
      f_equal. replace (Z.to_nat (l_idx c + 1)) with (S (Z.to_nat (l_idx c))) by lia.
      by rewrite (take_S_r _ _ _ Hlook).
  - assert (Hidx : l_idx c = count (l_nd c) - 1) by lia.
    destruct up as [|a up0].
    + eexists. split; [reflexivity|]. cbn [head mbind option_bind].
      unfold l_entry, l_valid. cbn [l_idx l_nd].
      replace ((0 <=? count (l_nd c)) && (count (l_nd c) <? count (l_nd c))) with false; [done|].
      symmetry. apply andb_false_iff. right. lia.
    + destruct Hlinked as [(ea & Hea & Hch) Hlinked].
      destruct (IH (S H) Hup Hlinked ltac:(done)) as (up' & Hrun & Hcase).
      rewrite Hrun.
      destruct (head up' ≫= l_entry) as [e'|] eqn:Hhead.
      * destruct Hcase as (Hwf' & Hlinked' & e0 & He0 & Hbefore).
        cbn in He0. rewrite Hea in He0. injection He0 as <-.
        destruct up' as [|a' up'']; [done|]. cbn in Hhead.
        apply l_entry_Some in Hhead as Hhead'. destruct Hhead' as [Hva' Hea'].
        pose proof Hwf' as (Hnode' & _ & _ & Hup').
        destruct (wfNode_child _ _ _ e' Hnode') as (ch & Hch' & Hwfch & Hkey).
        { by eapply list_elem_of_lookup_2. }
        unfold fetchChild. rewrite Hnrw, Hch'.
        eexists. split; [reflexivity|]. cbn [head mbind option_bind].
        assert (Hnech : entries ch <> []) by (by eapply wfNode_nonempty).
        destruct (entries ch) as [|e1 es1] eqn:Hentries; [done|].
        assert (Hvch : l_valid {| l_nd := ch; l_idx := 0; l_nrw := ns |} = true).
        { unfold l_valid, count. cbn [l_idx l_nd]. rewrite Hentries.
          apply andb_true_intro; split; [done|]. apply Z.ltb_lt. cbn [length]. lia. }
        unfold l_entry at 1. rewrite Hvch. cbn [l_idx l_nd]. rewrite Hentries.
        cbn [Z.to_nat lookup list_lookup].
        split; [|split].
        -- split; [done|]. split; [done|]. split; [done|]. exact Hwf'.
        -- split; [|exact Hlinked']. exists e'. cbn. by rewrite Hhead.
        -- exists ec. cbn [head mbind option_bind]. split; [done|].
           rewrite (before_first ns _ (a' :: up'')) by done.
           rewrite Hbefore, bind_app.
           change (before ns (c :: a :: up0))
             with (beforeAt ns 1 (a :: up0) ++
                   take (Z.to_nat (l_idx c)) (entries (l_nd c))).
           rewrite beforeAt_S. change (beforeAt ns 0 (a :: up0)) with (before ns (a :: up0)).
           rewrite <- (assoc_L (++)). f_equal.
           cbn. unfold children. rewrite Hch, app_nil_r.
           rewrite <- (take_drop (Z.to_nat (l_idx c)) (entries (l_nd c))) at 1.
           f_equal. rewrite (drop_S _ _ _ Hlook).
           rewrite drop_ge; [done|]. unfold count in Hidx. lia.
      * eexists. split; [reflexivity|]. cbn [head mbind option_bind].
        unfold l_entry, l_valid. cbn [l_idx l_nd].
        replace ((0 <=? count (l_nd c)) && (count (l_nd c) <? count (l_nd c))) with false; [done|].
        symmetry. apply andb_false_iff. right. lia.
Qed.

Lemma advance_levels_run ns h a l cs :
  chain h (Some a) l cs ->
  wfLevels ns 0 (level_of <$> cs) -> linked ns (level_of <$> cs) ->
  exists h1 c1 cs1,
    advance (Some a) h = Ret (None, h1) /\ chain h1 (Some a) l (c1 :: cs1) /\
    h1 !! a = Some c1 /\
    match l_entry (level_of c1) with
    | Some e' =>
        valid c1 = true /\
        exists e, head (level_of <$> cs) ≫= l_entry = Some e /\
          before ns (level_of <$> c1 :: cs1) = before ns (level_of <$> cs) ++ [e]
    | None => valid c1 = false
    end.
Proof.
  intros Hc Hwf Hlinked. unfold advance.
  destruct (advance_rec_levels _ _ _ _ _ Hc (chain_bound _ _ _ _ Hc))
    as (h1 & cs' & Hrun & Hc1 & Hlv & _ & _).
  assert (Hne : level_of <$> cs <> []).
  { apply chain_nonnil in Hc as (c & l' & cs0 & _ & -> & _). done. }
  destruct (advance_levels_next ns _ 0%nat Hwf Hlinked Hne) as (lv' & Hpure & Hcase).
  rewrite Hpure in Hrun, Hlv. cbn [fst snd] in *.
  pose proof Hc1 as Hc1'.
  apply chain_nonnil in Hc1' as (c1 & l' & cs1 & -> & -> & Ha1 & _ & _).
  exists h1, c1, cs1. split; [done|]. split; [done|]. split; [done|].
  rewrite <- Hlv in Hcase. cbn [fmap list_fmap head mbind option_bind] in Hcase.
  rewrite l_entry_of in *.
  destruct (valid c1) eqn:Hv.
  - destruct (valid_entry _ Hv) as [e' He']. rewrite He' in *.
    destruct Hcase as (_ & _ & e & He & Hb). split; [done|]. by exists e.
  - done.
Qed.

Lemma getPreviousKey_first_entry ns h a l c cs :
  chain h (Some a) l (c :: cs) ->
  idx c = 0 ->
  wfLevels ns 0 (level_of <$> c :: cs) ->
  (exists cl,
      Json.getPreviousKey (Some a) h =
      Ret (fst <$> last (before ns (level_of <$> c :: cs)), None, h ++ cl)) /\
  (fst <$> last (before ns (level_of <$> c :: cs)) = None <->
   Forall (fun a => l_idx a = 0) (level_of <$> c :: cs)).
Proof.
  intros Hc Hidx Hwf. split.
  - pose proof (getPreviousKey_levels _ _ _ _ Hc) as Hrun.
    change (level_of <$> c :: cs) with (level_of c :: (level_of <$> cs)) in *.
    rewrite (previousKey_levels_before ns) in Hrun; done.
  - rewrite fmap_None, last_None. by apply (beforeAt_nil ns _ O O).
Qed.

(** C4. In the tree of a document a leaf holds one chunk, its only entry.
    For every cursor that stands on the entry of such a leaf, in a
    well-formed tree (no node is empty, every reference resolves, every
    internal entry carries the last key of its child, and every ancestor
    stands on an entry), [getPreviousKey] returns, with a nil error, the key
    of the entry that comes immediately before the position of the cursor in
    the tree, leaving the cursor objects it found in the store as they were;
    and it returns nil exactly when no entry comes before, which is when
    every level of the chain stands at index 0, the first entry of the whole
    tree. *)
Theorem getPreviousKey_predecessor ns h a l c cs :
  chain h (Some a) l (c :: cs) ->
  count (nd c) = 1 ->
  wfLevels ns 0 (level_of <$> c :: cs) ->
  (exists cl,
      Json.getPreviousKey (Some a) h =
      Ret (fst <$> last (before ns (level_of <$> c :: cs)), None, h ++ cl)) /\
  (fst <$> last (before ns (level_of <$> c :: cs)) = None <->
   Forall (fun a => l_idx a = 0) (level_of <$> c :: cs)).
Proof.
  intros Hc Hone Hwf. apply (getPreviousKey_first_entry ns h a l c cs); [done| |done].
  destruct Hwf as (_ & Hv & _). unfold l_valid in Hv. cbn in Hv.
  apply andb_prop in Hv as [H0 H1]. lia.
Qed.

(** C8. [getPreviousKey] works on a clone. Called on a cursor whose parent
    chain ends, its two writing steps, [clone] and [retreat] of the clone,
    both return and leave a store that is the store they were given followed
    by the objects of the clone; the call itself returns or panics, and when
    it returns the store is again the old store followed by new objects. So
    the node, the index and the parent of the cursor it was given, and of
    every cursor above it, are what they were. Nodes are values of the model,
    and no operation writes to a node or to the node store. *)
Theorem getPreviousKey_keeps_cursors h a l cs :
  chain h (Some a) l cs ->
  (exists cur2 h1 err cl,
      clone (Some a) h = Ret (cur2, h1) /\ retreat cur2 h1 = Ret (err, h ++ cl)) /\
  Json.getPreviousKey (Some a) h <> Diverge /\
  (forall r h', Json.getPreviousKey (Some a) h = Ret (r, h') -> exists cl, h' = h ++ cl).
Proof.
  intros Hc. split.
  { destruct (clone_retreat _ _ _ _ Hc) as (a' & l' & cs2 & cl & cl2 & Hclone & Hrun & _).
    eauto 10. }
  pose proof (getPreviousKey_levels _ _ _ _ Hc) as Hrun.
  destruct (previousKey_levels (level_of <$> cs)) as [r|msg|] eqn:Hpure; simpl in Hrun.
  - destruct Hrun as [cl Hrun]. rewrite Hrun. split; [done|].
    intros r' h' [= _ <-]. by exists cl.
  - by rewrite Hrun.
  - exfalso. revert Hpure. unfold previousKey_levels.
    destruct (retreat_levels _) as [[e|] [|c' [|a' up']]]; try done;
      repeat case_match; done.
Qed.

(** C10. [getPreviousKey] reads the key of the parent of the retreated
    clone without testing the parent for nil. On a cursor without parent
    (the root node is the leaf) it panics with a nil dereference exactly
    when the clone is valid after retreating, that is when the index of the
    cursor is past the first entry and at most the entry count; otherwise it
    returns nil and no error. *)
Theorem getPreviousKey_nil_parent h a c :
  h !! a = Some c ->
  parent c = None ->
  (0 < idx c <= count (nd c) -> Json.getPreviousKey (Some a) h = Panic nil_deref) /\
  (~ 0 < idx c <= count (nd c) ->
   exists cl, Json.getPreviousKey (Some a) h = Ret (None, None, h ++ cl)).
Proof.
  intros Ha Hpar.
  assert (Hc : chain h (Some a) [a] [c]).
  { constructor; [done | rewrite Hpar; constructor | apply not_elem_of_nil]. }
  pose proof (getPreviousKey_levels _ _ _ _ Hc) as Hrun.
  unfold previousKey_levels in Hrun. cbn in Hrun. unfold l_valid in Hrun. cbn in Hrun.
  split; intros Hidx.
  - replace (0 <? idx c) with true in Hrun by (symmetry; apply Z.ltb_lt; lia).
    cbn in Hrun.
    replace ((0 <=? idx c - 1) && (idx c - 1 <? count (nd c))) with true in Hrun;
      [done|].
    symmetry. apply andb_true_intro. split; lia.
  - destruct (0 <? idx c) eqn:Hpos; cbn in Hrun.
    + replace ((0 <=? idx c - 1) && (idx c - 1 <? count (nd c))) with false in Hrun;
        [done|].
      symmetry. apply andb_false_iff. apply Z.ltb_lt in Hpos. lia.
    + done.
Qed.

End TreeFacts.

(** ** The document cursor *)

Section JsonFacts.
Import Tree Position Json.
Context `{Sc : Scanning} `{Sk : Seeking}.

Lemma Valid_ro p h b h' : Valid p h = Ret (b, h') -> h' = h.
Proof.
  unfold Valid, load. mred. destruct p as [a|]; [|done].
  destruct (h !! a); [|done]. by intros [= _ <-].
Qed.

Lemma currentValue_ro p h v h' : currentValue p h = Ret (v, h') -> h' = h.
Proof.
  unfold currentValue, currentEntry, load. mred. destruct p as [a|]; [|done].
  destruct (h !! a) as [c|]; [|done]. destruct (valid c); [|done].
  destruct (entries (nd c) !! Z.to_nat (idx c)); [|done]. by intros [= _ <-].
Qed.

(** C6. When the scanner is not at the start of a value, [NextValue] fails
    with the error "JSON cursor in unexpected state", returns no bytes, and
    leaves the cursor and the store as they were. *)
Theorem NextValue_not_at_start fuel j h :
  atStartOfValue (jsonScanner j) = false ->
  NextValue fuel j h = Ret ([], Some unexpected_state, j, h).
Proof. intros Hstart. unfold NextValue. by rewrite Hstart. Qed.

Lemma AdvanceToNextLocation_from_cur fuel : forall b j h b' e j' h',
  AdvanceToNextLocation_from fuel b j h = Ret (b', e, j', h') -> cur j' = cur j.
Proof.
  induction fuel as [|fuel IH]; intros b j h b' e j' h'; [done|].
  cbn [AdvanceToNextLocation_from]. destruct (scanner_AdvanceToNextLocation (jsonScanner j)) as [err s].
  destruct err as [[|msg]|]; mred; cbn [cur set_scanner].
  - destruct (advance (cur j) h) as [[[e1|] h1]| |]; try done.
    { by intros [= <- <- <- <-]. }
    destruct (Valid (cur j) h1) as [[[] h2]| |]; try done; cbn [negb].
    + destruct (currentValue (cur j) h2) as [[v h3]| |]; try done.
      intros Hrun. by apply IH in Hrun.
    + by intros [= <- <- <- <-].
  - by intros [= <- <- <- <-].
  - by intros [= <- <- <- <-].
Qed.

Lemma AdvanceToNextLocation_from_success fuel : forall b j h b' j' h',
  AdvanceToNextLocation_from fuel b j h = Ret (b', None, j', h') ->
  (b' = b /\ h' = h) \/ (b' = true /\ Valid (cur j') h' = Ret (true, h')).
Proof.
  induction fuel as [|fuel IH]; intros b j h b' j' h'; [done|].
  cbn [AdvanceToNextLocation_from]. destruct (scanner_AdvanceToNextLocation (jsonScanner j)) as [err s].
  destruct err as [[|msg]|]; mred; cbn [cur set_scanner].
  - destruct (advance (cur j) h) as [[[e1|] h1]| |]; try done.
    destruct (Valid (cur j) h1) as [[[] h2]| |] eqn:Hvalid; try done; cbn [negb].
    destruct (currentValue (cur j) h2) as [[v h3]| |] eqn:Hvalue; try done.
    apply Valid_ro in Hvalid as Hh2. apply currentValue_ro in Hvalue as Hh3. subst h2 h3.
    intros Hrun. right. pose proof (AdvanceToNextLocation_from_cur _ _ _ _ _ _ _ _ Hrun) as Hcur.
    cbn in Hcur. apply IH in Hrun as [[-> ->]|[-> Hv]]; [|done].
    split; [done|]. by rewrite Hcur.
  - done.
  - intros [= <- <- <-]. by left.
Qed.

Lemma AdvanceToNextLocation_from_crossed fuel : forall j h b e j' h',
  AdvanceToNextLocation_from fuel true j h = Ret (b, e, j', h') -> b = true.
Proof.
  induction fuel as [|fuel IH]; intros j h b e j' h'; [done|].
  cbn [AdvanceToNextLocation_from]. destruct (scanner_AdvanceToNextLocation (jsonScanner j)) as [err s].
  destruct err as [[|msg]|]; mred; cbn [cur set_scanner].
  - destruct (advance (cur j) h) as [[[e1|] h1]| |]; try done.
    { by intros [= <- _ _ _]. }
    destruct (Valid (cur j) h1) as [[[] h2]| |]; try done; cbn [negb].
    + destruct (currentValue (cur j) h2) as [[v h3]| |]; try done. apply IH.
    + by intros [= <- _ _ _].
  - by intros [= <- _ _ _].
  - by intros [= <- _ _ _].
Qed.

(** C5. When the scanner is at the end of its buffer,
    [AdvanceToNextLocation] advances the tree cursor to the next leaf and
    reports [crossedBoundary = true]; at the end of the tree it returns
    [io.EOF]. In full: whatever the call returns, it returns
    [crossedBoundary = true] and [advance] was called on the tree cursor.
    When [advance] leaves the tree cursor on an entry and the scanner
    started on the value of that entry, from the path that the exhausted
    scanner had, makes a step, the call returns a nil error with the scanner
    after that step and the store that [advance] left. In a well-formed tree
    whose levels are linked, [advance] returns, and either the tree cursor
    then stands exactly one entry further in the tree, on the next leaf, and
    the call returns as just said, or no entry is left and the call returns
    [io.EOF]. When the tree cursor is not valid after [advance], the call
    returns [io.EOF]. A nil error is returned only with a valid tree
    cursor. *)
Theorem AdvanceToNextLocation_at_end_of_chunk fuel j h s :
  scanner_AdvanceToNextLocation (jsonScanner j) = (Some io_EOF, s) ->
  (forall b e j' h', AdvanceToNextLocation fuel j h = Ret (b, e, j', h') ->
     b = true /\ cur j' = cur j /\ exists e1 h1, advance (cur j) h = Ret (e1, h1)) /\
  (forall h1 v s',
     advance (cur j) h = Ret (None, h1) ->
     Valid (cur j) h1 = Ret (true, h1) ->
     currentValue (cur j) h1 = Ret (v, h1) ->
     scanner_AdvanceToNextLocation (ScanJsonFromMiddle v (currentPath s)) = (None, s') ->
     AdvanceToNextLocation (S (S fuel)) j h = Ret (true, None, set_scanner s' j, h1)) /\
  (forall ns a l cs,
     cur j = Some a -> chain h (Some a) l cs ->
     wfLevels ns 0 (level_of <$> cs) -> linked ns (level_of <$> cs) ->
     exists h1 cs1,
       advance (cur j) h = Ret (None, h1) /\ chain h1 (Some a) l cs1 /\
       match head (level_of <$> cs1) ≫= l_entry with
       | Some e' =>
           (exists e, head (level_of <$> cs) ≫= l_entry = Some e /\
              before ns (level_of <$> cs1) = before ns (level_of <$> cs) ++ [e]) /\
           forall s',
             scanner_AdvanceToNextLocation (ScanJsonFromMiddle e'.2 (currentPath s))
               = (None, s') ->
             AdvanceToNextLocation (S (S fuel)) j h = Ret (true, None, set_scanner s' j, h1)
       | None =>
           AdvanceToNextLocation (S fuel) j h = Ret (true, Some io_EOF, set_scanner s j, h1)
       end) /\
  (forall h1,
     advance (cur j) h = Ret (None, h1) ->
     Valid (cur j) h1 = Ret (false, h1) ->
     AdvanceToNextLocation (S fuel) j h = Ret (true, Some io_EOF, set_scanner s j, h1)) /\
  (forall b j' h', AdvanceToNextLocation fuel j h = Ret (b, None, j', h') ->
     Valid (cur j') h' = Ret (true, h')).
Proof.
  intros Hscan.
  assert (Hnext : forall fuel h1 v s',
     advance (cur j) h = Ret (None, h1) ->
     Valid (cur j) h1 = Ret (true, h1) ->
     currentValue (cur j) h1 = Ret (v, h1) ->
     scanner_AdvanceToNextLocation (ScanJsonFromMiddle v (currentPath s)) = (None, s') ->
     AdvanceToNextLocation (S (S fuel)) j h = Ret (true, None, set_scanner s' j, h1)).
  { intros fuel0 h1 v s' Hadv Hvalid Hvalue Hstep. unfold AdvanceToNextLocation.
    cbn [AdvanceToNextLocation_from]. rewrite Hscan. mred. cbn [cur set_scanner jsonScanner].
    rewrite Hadv, Hvalid. cbn [negb]. by rewrite Hvalue, Hstep. }
  assert (Hend : forall fuel h1,
     advance (cur j) h = Ret (None, h1) ->
     Valid (cur j) h1 = Ret (false, h1) ->
     AdvanceToNextLocation (S fuel) j h = Ret (true, Some io_EOF, set_scanner s j, h1)).
  { intros fuel0 h1 Hadv Hvalid. unfold AdvanceToNextLocation.
    cbn [AdvanceToNextLocation_from]. rewrite Hscan. mred.
    cbn [cur set_scanner]. by rewrite Hadv, Hvalid. }
  unfold AdvanceToNextLocation. split; [|split; [|split; [|split]]].
  - intros b e j' h' Hrun.
    pose proof (AdvanceToNextLocation_from_cur _ _ _ _ _ _ _ _ Hrun) as Hcur.
    split; [|split; [done|]]; revert Hrun; (destruct fuel as [|fuel]; [done|]);
      cbn [AdvanceToNextLocation_from]; rewrite Hscan; mred; cbn [cur set_scanner];
      (destruct (advance (cur j) h) as [[[e1|] h1]| |]; try done).
    + by intros [= <- _ _ _].
    + destruct (Valid (cur j) h1) as [[[] h2]| |]; try done; cbn [negb].
      * destruct (currentValue (cur j) h2) as [[v h3]| |]; try done.
        intros Hrun. by apply AdvanceToNextLocation_from_crossed in Hrun.
      * by intros [= <- _ _ _].
    + eauto.
    + eauto.
  - apply Hnext.
  - intros ns a l cs Hcur Hc Hwf Hlinked. rewrite Hcur in *.
    destruct (advance_levels_run ns _ _ _ _ Hc Hwf Hlinked)
      as (h1 & c1 & cs1 & Hadv & Hc1 & Ha1 & Hcase).
    exists h1, (c1 :: cs1). split; [done|]. split; [done|].
    cbn [fmap list_fmap head mbind option_bind].
    pose proof (Valid_eq _ _ _ Ha1) as Hvalid.
    rewrite l_entry_of in *.
    destruct (valid c1) eqn:Hv.
    + destruct (valid_entry _ Hv) as [e' He']. rewrite He' in *.
      destruct Hcase as [_ Hpos]. split; [done|]. intros s' Hstep.
      change (AdvanceToNextLocation_from (S (S fuel)) false j h)
        with (AdvanceToNextLocation (S (S fuel)) j h).
      apply (Hnext fuel h1 e'.2 s'); try done.
      by apply (currentValue_eq _ _ c1).
    + change (AdvanceToNextLocation_from (S fuel) false j h)
        with (AdvanceToNextLocation (S fuel) j h).
      by apply Hend.
  - apply Hend.
  - intros b j' h' Hrun.
    destruct fuel as [|fuel]; [done|]. pose proof Hrun as Hrun'.
    apply AdvanceToNextLocation_from_success in Hrun as [[-> ->]|[_ Hv]]; [|done].
    exfalso. revert Hrun'. cbn [AdvanceToNextLocation_from]. rewrite Hscan. mred.
    cbn [cur set_scanner].
    destruct (advance (cur j) h) as [[[e1|] h1]| |]; try done.
    destruct (Valid (cur j) h1) as [[[] h2]| |]; try done; cbn [negb].
    destruct (currentValue (cur j) h2) as [[v h3]| |]; try done.
    intros Hrun. by apply AdvanceToNextLocation_from_crossed in Hrun.
Qed.

Lemma load_ro p h c h' : load p h = Ret (c, h') -> h' = h.
Proof.
  unfold load. destruct p as [a|]; [|done]. destruct (h !! a); [|done].
  by intros [= _ <-].
Qed.

Lemma currentRef_ro p h v h' : currentRef p h = Ret (v, h') -> h' = h.
Proof. apply currentValue_ro. Qed.

Lemma parseChunk_success fuel f h f' h' :
  parseChunk fuel f h = Ret (None, f', h') ->
  exists b, AdvanceToNextLocation fuel (f_j f) h = Ret (b, None, f_j f', h').
Proof.
  unfold parseChunk. mred.
  destruct (AdvanceToNextLocation fuel (f_j f) h) as [[[[b [e|]] j1] h1]| |]; try done.
  destruct b.
  - unfold lift. destruct (slice_from _ _); try done. cbn. intros [= <- <-]. by exists true.
  - intros [= <- <-]. by exists false.
Qed.

(** What a successful [parseChunk] gathers: when the advancing call
    crossed, however many chunk boundaries it crossed, the rest of the
    buffer that was current before the call, and nothing else; the buffer
    of the scanner becomes the current one, from offset 0. *)
Lemma parseChunk_gathers fuel f h f' h' :
  parseChunk fuel f h = Ret (None, f', h') ->
  exists b,
    AdvanceToNextLocation fuel (f_j f) h = Ret (b, None, f_j f', h') /\
    if b then
      0 <= startPos f <= Z.of_nat (length (f_jsonBuffer f)) /\
      result f' = result f ++ drop (Z.to_nat (startPos f)) (f_jsonBuffer f) /\
      f_jsonBuffer f' = jsonBuffer (jsonScanner (f_j f')) /\
      startPos f' = 0
    else
      result f' = result f /\ f_jsonBuffer f' = f_jsonBuffer f /\
      startPos f' = startPos f.
Proof.
  unfold parseChunk. mred.
  destruct (AdvanceToNextLocation fuel (f_j f) h) as [[[[b [e|]] j1] h1]| |]; try done.
  destruct b.
  - unfold lift, slice_from.
    destruct ((0 <=? startPos f) && (startPos f <=? Z.of_nat (length (f_jsonBuffer f))))
      eqn:Hrange; [|done].
    cbn. intros [= <- <-]. exists true. split; [done|]. cbn.
    apply andb_prop in Hrange as [H0 H1]. repeat split; lia.
  - intros [= <- <-]. by exists false.
Qed.

(** C3. A call of [AdvanceToLocation] that returns a nil error has taken
    turns of its loop, each while the scan path was less than the target:
    a turn advances the scanner, or, the buffer being exhausted, seeks the
    parent cursor to the key of the target, fetches the leaf under it, and
    starts a scanner on the value of that leaf from the key of its
    predecessor; the scan path at the return is not less than the target. *)
Theorem AdvanceToLocation_reaches fuel : forall j path h j' h',
  AdvanceToLocation fuel j path h = Ret (None, j', h') ->
  seeks path (j, h) (j', h') /\
  ~ compareJsonLocations (currentPath (jsonScanner j')) path < 0.
Proof.
  induction fuel as [|fuel IH]; intros j path h j' h';
    cbn [AdvanceToLocation];
    destruct (compareJsonLocations (currentPath (jsonScanner j)) path <? 0) eqn:Hlt.
  - done.
  - mred. intros [= <- <-]. apply Z.ltb_ge in Hlt. split; [constructor|]; lia.
  - apply Z.ltb_lt in Hlt.
    destruct (scanner_AdvanceToNextLocation (jsonScanner j)) as [[[|msg]|] s] eqn:Hscan; mred;
      cbn [cur set_scanner]; try done.
    + destruct (load (cur j) h) as [[c h0]| |] eqn:Hload; try done.
      apply load_ro in Hload as Hh0. subst h0.
      destruct (Seek (parent c) (key path) h) as [[[e|] h1]| |] eqn:Hseek; try done.
      destruct (load (cur j) h1) as [[c1 h1']| |] eqn:Hload1; try done.
      apply load_ro in Hload1 as Hh1. subst h1'.
      destruct (currentRef (parent c1) h1) as [[ref h1']| |] eqn:Href; try done.
      apply currentRef_ro in Href as Hh1. subst h1'.
      destruct (fetchChild (nrw c1) ref) as [n err] eqn:Hfetch.
      destruct (modify (cur j) (set_nd n) h1) as [[[] h2]| |] eqn:Hmod; try done.
      destruct err as [e|]; [done|].
      destruct (getPreviousKey (cur j) h2) as [[[prev [e|]] h3]| |] eqn:Hprev; try done.
      destruct (currentValue (cur j) h3) as [[v h3']| |] eqn:Hval; try done.
      apply currentValue_ro in Hval as Hh3. subst h3'.
      intros Hrun. apply IH in Hrun as [Hrun Hstop]. split; [|done].
      by eapply seeks_fetch.
    + intros Hrun. apply IH in Hrun as [Hrun Hstop]. split; [|done].
      by eapply seeks_scan.
  - mred. intros [= <- <-]. apply Z.ltb_ge in Hlt. split; [constructor|]; lia.
Qed.

(** Results do not depend on the loop counter once it is large enough. *)
Lemma AdvanceToNextLocation_from_stable fuel : forall fuel' b j h,
  (fuel <= fuel')%nat ->
  AdvanceToNextLocation_from fuel b j h <> Diverge ->
  AdvanceToNextLocation_from fuel' b j h = AdvanceToNextLocation_from fuel b j h.
Proof.
  induction fuel as [|fuel IH]; intros fuel' b j h Hle; [done|].
  destruct fuel' as [|fuel']; [lia|].
  cbn [AdvanceToNextLocation_from]. destruct (scanner_AdvanceToNextLocation (jsonScanner j)) as [err s].
  destruct err as [[|msg]|]; mred; cbn [cur set_scanner]; try done.
  destruct (advance (cur j) h) as [[[e1|] h1]| |]; try done.
  destruct (Valid (cur j) h1) as [[[] h2]| |]; try done; cbn [negb].
  destruct (currentValue (cur j) h2) as [[v h3]| |]; try done.
  apply IH. lia.
Qed.

Lemma parseChunk_stable fuel fuel' f h :
  (fuel <= fuel')%nat ->
  parseChunk fuel f h <> Diverge ->
  parseChunk fuel' f h = parseChunk fuel f h.
Proof.
  intros Hle. unfold parseChunk, AdvanceToNextLocation. mred. intros Hrun.
  rewrite (AdvanceToNextLocation_from_stable fuel fuel'); [done | done |].
  intros Hdiv. by rewrite Hdiv in Hrun.
Qed.

Lemma NextValue_loop_stable fuel fuel' path n : forall n' f h,
  (fuel <= fuel')%nat -> (n <= n')%nat ->
  NextValue_loop fuel n path f h <> Diverge ->
  NextValue_loop fuel' n' path f h = NextValue_loop fuel n path f h.
Proof.
  induction n as [|n IH]; intros n' f h Hle Hn.
  - cbn [NextValue_loop]. destruct n'; cbn [NextValue_loop];
      destruct (_ <? 0); done.
  - destruct n' as [|n']; [lia|]. cbn [NextValue_loop].
    destruct (_ <? 0); [|done]. mred. intros Hrun.
    rewrite (parseChunk_stable fuel fuel'); [| done |].
    + destruct (parseChunk fuel f h) as [[[[e|] f1] h1]| |]; try done.
      apply IH; [done | lia | done].
    + intros Hdiv. by rewrite Hdiv in Hrun.
Qed.

Lemma NextValue_stable fuel fuel' j h :
  (fuel <= fuel')%nat ->
  NextValue fuel j h <> Diverge ->
  NextValue fuel' j h = NextValue fuel j h.
Proof.
  intros Hle. unfold NextValue. destruct (negb _); [done|]. mred. intros Hrun.
  rewrite (parseChunk_stable fuel fuel'); [| done |].
  - destruct (parseChunk fuel _ h) as [[[[e|] f1] h1]| |]; try done.
    by apply NextValue_loop_stable.
  - intros Hdiv. by rewrite Hdiv in Hrun.
Qed.

Lemma AdvanceToLocation_stable fuel : forall fuel' j path h,
  (fuel <= fuel')%nat ->
  AdvanceToLocation fuel j path h <> Diverge ->
  AdvanceToLocation fuel' j path h = AdvanceToLocation fuel j path h.
Proof.
  induction fuel as [|fuel IH]; intros fuel' j path h Hle.
  - cbn [AdvanceToLocation]. destruct fuel'; cbn [AdvanceToLocation];
      destruct (_ <? 0); done.
  - destruct fuel' as [|fuel']; [lia|]. cbn [AdvanceToLocation].
    destruct (_ <? 0); [|done].
    destruct (scanner_AdvanceToNextLocation (jsonScanner j)) as [[[|msg]|] s]; mred;
      cbn [cur set_scanner]; try done.
    + destruct (load (cur j) h) as [[c h0]| |]; try done.
      destruct (Seek (parent c) (key path) h0) as [[[e|] h1]| |]; try done.
      destruct (load (cur j) h1) as [[c1 h1']| |]; try done.
      destruct (currentRef (parent c1) h1') as [[ref h1'']| |]; try done.
      destruct (fetchChild (nrw c1) ref) as [n err].
      destruct (modify (cur j) (set_nd n) h1'') as [[[] h2]| |]; try done.
      destruct err as [e|]; [done|].
      destruct (getPreviousKey (cur j) h2) as [[[prev [e|]] h3]| |]; try done.
      destruct (currentValue (cur j) h3) as [[v h3']| |]; try done.
      apply IH. lia.
    + apply IH. lia.
Qed.
(** X27. [newJsonCursor] calls [getPreviousKey] on the cursor that
    [newCursorAtKey] makes; when that cursor has no parent and stands past
    the first entry, the nil dereference is reached at once. *)
Lemma newJsonCursor_nil_parent newCursorAtKey fuel ns root startKey h0 h a c :
  newCursorAtKey ns root (key startKey) h0 = Ret (Some a, None, h) ->
  h !! a = Some c ->
  parent c = None ->
  0 < idx c <= count (nd c) ->
  newJsonCursor newCursorAtKey fuel ns root startKey h0 = Panic nil_deref.
Proof.
  intros Hnew Ha Hpar Hidx. unfold newJsonCursor. mred. rewrite Hnew.
  assert (Hc : Position.chain h (Some a) [a] [c]).
  { constructor; [done | rewrite Hpar; constructor | apply not_elem_of_nil]. }
  pose proof (getPreviousKey_levels _ _ _ _ Hc) as Hrun.
  unfold Position.previousKey_levels in Hrun. cbn in Hrun.
  replace (0 <? idx c) with true in Hrun by (symmetry; apply Z.ltb_lt; lia).
  unfold Position.l_valid in Hrun. cbn in Hrun.
  replace ((0 <=? idx c - 1) && (idx c - 1 <? count (nd c))) with true in Hrun.
  - by rewrite Hrun.
  - symmetry. apply andb_true_intro. split; lia.
Qed.

End JsonFacts.

(** ** Runs on the concrete trees *)

Section Runs.
Import Tree Position Json Reference Examples.
#[local] Existing Instance scanning.
#[local] Existing Instance seeking.

(** C9, as stated, fails: for a root whose only table name is not found,
    no error is returned to the caller. *)
Lemma mapTableHashes_absent_no_error :
  Env.GetTableNames Env.lost_table_root = (["t"%string], None) /\
  Env.GetTableHash Env.lost_table_root "t" = ([], false, None) /\
  ~ exists e, Env.mapTableHashes Env.lost_table_root = Ret (None, Some e).
Proof.
  split; [reflexivity|]. split; [reflexivity|].
  intros [e He]. vm_compute in He. discriminate He.
Qed.

Lemma mapTableHashes_absent_panics_witness :
  Env.mapTableHashes Env.lost_table_root = Panic Env.mismatch.
Proof.
  apply (mapTableHashes_absent_panics Env.lost_table_root [] "t"%string [] []);
    [reflexivity | constructor | reflexivity].
Defined.

Lemma AdvanceToLocation_reaches_witness :
  exists j' h',
    AdvanceToLocation 6 (cursorAt (lbracket :: ab) 0 at_root) second_of_pair
      (heapAt pair_split 0) = Ret (None, j', h') /\
    GetCurrentPath j' = second_of_pair /\
    seeks second_of_pair
      (cursorAt (lbracket :: ab) 0 at_root, heapAt pair_split 0) (j', h').
Proof.
  eexists _, _. split; [vm_compute; reflexivity|]. split; [reflexivity|].
  eapply (AdvanceToLocation_reaches 6). vm_compute. reflexivity.
Defined.

(** The chains of the document cursor on the first and on the second chunk
    of the pair, and the shape of the tree under them. *)
Lemma chain_first_chunk :
  chain (heapAt pair_split 0) (Some 1%nat) [1%nat; O]
    [ leafCursor pair_split (keyAt [O] 4, lbracket :: ab); rootCursor pair_split 0 ].
Proof.
  constructor; [reflexivity | | by apply not_elem_of_cons; split; [lia | apply not_elem_of_nil]].
  constructor; [reflexivity | constructor | apply not_elem_of_nil].
Defined.

Lemma chain_second_chunk :
  chain (heapAt pair_split 1) (Some 1%nat) [1%nat; O]
    [ leafCursor pair_split (keyAt [1%nat] 5, comma :: cd ++ [rbracket]);
      rootCursor pair_split 1 ].
Proof.
  constructor; [reflexivity | | by apply not_elem_of_cons; split; [lia | apply not_elem_of_nil]].
  constructor; [reflexivity | constructor | apply not_elem_of_nil].
Defined.

Lemma wfLevels_first_chunk :
  wfLevels (storeOf pair_split) 0
    (level_of <$> [ leafCursor pair_split (keyAt [O] 4, lbracket :: ab);
                    rootCursor pair_split 0 ]).
Proof.
  cbn. repeat split; try done.
  repeat constructor; eexists; (split; [reflexivity|]); split; done.
Defined.

Lemma wfLevels_second_chunk :
  wfLevels (storeOf pair_split) 0
    (level_of <$> [ leafCursor pair_split (keyAt [1%nat] 5, comma :: cd ++ [rbracket]);
                    rootCursor pair_split 1 ]).
Proof.
  cbn. repeat split; try done.
  repeat constructor; eexists; (split; [reflexivity|]); split; done.
Defined.

Lemma linked_first_chunk :
  linked (storeOf pair_split)
    (level_of <$> [ leafCursor pair_split (keyAt [O] 4, lbracket :: ab);
                    rootCursor pair_split 0 ]).
Proof. split; [|done]. eexists. split; reflexivity. Defined.

Lemma linked_second_chunk :
  linked (storeOf pair_split)
    (level_of <$> [ leafCursor pair_split (keyAt [1%nat] 5, comma :: cd ++ [rbracket]);
                    rootCursor pair_split 1 ]).
Proof. split; [|done]. eexists. split; reflexivity. Defined.

Lemma AdvanceToNextLocation_at_end_of_chunk_witness :
  (* at the end of the first chunk: on to the second *)
  AdvanceToNextLocation 2 after_first_of_pair (heapAt pair_split 0)
    = Ret (true, None, cursorAt (comma :: cd ++ [rbracket]) 1 second_of_pair,
           heapAt pair_split 1) /\
  (exists h1 cs1,
     advance (Some 1%nat) (heapAt pair_split 0) = Ret (None, h1) /\
     chain h1 (Some 1%nat) [1%nat; O] cs1 /\
     before (storeOf pair_split) (level_of <$> cs1)
       = [ (keyAt [O] 4, lbracket :: ab) ]) /\
  (* at the end of the second chunk: the end of the tree *)
  (exists h1,
     AdvanceToNextLocation 1 end_of_pair (heapAt pair_split 1)
       = Ret (true, Some io_EOF, end_of_pair, h1)).
Proof.
  pose proof (AdvanceToNextLocation_at_end_of_chunk (Sc := scanning) 0
                after_first_of_pair (heapAt pair_split 0)
                (jsonScanner after_first_of_pair) eq_refl)
    as (_ & Hnext & Htree & _ & _).
  pose proof (AdvanceToNextLocation_at_end_of_chunk (Sc := scanning) 0
                end_of_pair (heapAt pair_split 1)
                (jsonScanner end_of_pair) eq_refl)
    as (_ & _ & _ & Hend & _).
  split; [|split].
  - apply (Hnext (heapAt pair_split 1) (comma :: cd ++ [rbracket]));
      vm_compute; reflexivity.
  - destruct (Htree (storeOf pair_split) 1%nat _ _ eq_refl chain_first_chunk
                wfLevels_first_chunk linked_first_chunk)
      as (h1 & cs1 & Hadv & Hchain & Hcase).
    exists h1, cs1. split; [exact Hadv|]. split; [exact Hchain|].
    destruct (head (level_of <$> cs1) ≫= l_entry) as [e'|] eqn:Hhead.
    + destruct Hcase as [(e & He & Hbefore) _].
      rewrite Hbefore. injection He as <-. reflexivity.
    + exfalso. vm_compute in Hadv. injection Hadv as <-.
      apply chain_nonnil in Hchain as (c1 & l' & cs' & _ & -> & Hc1 & _).
      cbn in Hc1. injection Hc1 as <-. vm_compute in Hhead. discriminate Hhead.
  - eexists. apply Hend; vm_compute; reflexivity.
Defined.

Lemma NextValue_not_at_start_witness :
  atStartOfValue (jsonScanner after_first_of_pair) = false /\
  NextValue 5 after_first_of_pair (heapAt pair_split 0)
  = Ret ([], Some unexpected_state, after_first_of_pair, heapAt pair_split 0).
Proof.
  split; [reflexivity|]. apply NextValue_not_at_start. reflexivity.
Defined.

Lemma getPreviousKey_predecessor_witness :
  exists cl,
    getPreviousKey (Some 1%nat) (heapAt pair_split 1)
    = Ret (Some (keyAt [O] 4), None, heapAt pair_split 1 ++ cl).
Proof.
  exact (proj1 (getPreviousKey_predecessor (storeOf pair_split) _ _ _ _ _
                  chain_second_chunk eq_refl wfLevels_second_chunk)).
Defined.

Lemma getPreviousKey_keeps_cursors_witness :
  (exists cur2 h1 err cl,
      clone (Some 1%nat) (heapAt pair_split 1) = Ret (cur2, h1) /\
      retreat cur2 h1 = Ret (err, heapAt pair_split 1 ++ cl)) /\
  getPreviousKey (Some 1%nat) (heapAt pair_split 1) <> Diverge /\
  forall r h',
    getPreviousKey (Some 1%nat) (heapAt pair_split 1) = Ret (r, h') ->
    exists cl, h' = heapAt pair_split 1 ++ cl.
Proof.
  exact (getPreviousKey_keeps_cursors _ _ _ _ chain_second_chunk).
Defined.

Lemma getPreviousKey_nil_parent_witness :
  getPreviousKey (Some O) lone_heap = Panic nil_deref.
Proof.
  refine (proj1 (getPreviousKey_nil_parent lone_heap O _ eq_refl eq_refl) _).
  vm_compute. split; [reflexivity | discriminate].
Defined.

End Runs.

(** ** Table differences and the repository state *)

Section RepoFacts.
Import Env Repo.

Lemma diff_head_ne other diffs n hh t :
  n <> t -> diff_head other diffs (n, hh) !! t = diffs !! t.
Proof.
  intros Hne. unfold diff_head.
  destruct (other !! n); [destruct (decide _)|]; try done; by rewrite lookup_insert_ne.
Qed.

Lemma diff_other_ne head diffs n h t :
  n <> t -> diff_other head diffs (n, h) !! t = diffs !! t.
Proof.
  intros Hne. unfold diff_other. destruct (head !! n); [done|]. by rewrite lookup_insert_ne.
Qed.

Lemma foldl_diff_head other hs : forall diffs t,
  NoDup hs.*1 ->
  foldl (diff_head other) diffs hs !! t =
  match list_to_map (M := gmap string Hash) hs !! t with
  | Some hh =>
      match diff_at (Some hh) (other !! t) with
      | Some d => Some d
      | None => diffs !! t
      end
  | None => diffs !! t
  end.
Proof.
  induction hs as [|[n hh] hs IH]; intros diffs t Hnd; [done|].
  apply NoDup_cons in Hnd as [Hn Hnd]. cbn [foldl]. rewrite IH by done.
  rewrite list_to_map_cons.
  destruct (decide (n = t)) as [->|Hne].
  - rewrite lookup_insert_eq.
    rewrite (not_elem_of_list_to_map_1 hs t) by done.
    unfold diff_head, diff_at. destruct (other !! t) as [h|].
    + destruct (decide (h = hh)); [done|]. by rewrite lookup_insert_eq.
    + by rewrite lookup_insert_eq.
  - rewrite lookup_insert_ne by done. by rewrite diff_head_ne.
Qed.

Lemma foldl_diff_other head os : forall diffs t,
  NoDup os.*1 ->
  foldl (diff_other head) diffs os !! t =
  match list_to_map (M := gmap string Hash) os !! t with
  | Some h => match head !! t with Some _ => diffs !! t | None => Some h end
  | None => diffs !! t
  end.
Proof.
  induction os as [|[n h] os IH]; intros diffs t Hnd; [done|].
  apply NoDup_cons in Hnd as [Hn Hnd]. cbn [foldl]. rewrite IH by done.
  rewrite list_to_map_cons.
  destruct (decide (n = t)) as [->|Hne].
  - rewrite lookup_insert_eq.
    rewrite (not_elem_of_list_to_map_1 os t) by done.
    unfold diff_other. destruct (head !! t) as [hh|]; [done|]. by rewrite lookup_insert_eq.
  - rewrite lookup_insert_ne by done. by rewrite diff_other_ne.
Qed.

(** The entry of the difference for a table name, whatever the orders of
    the two ranges. *)
Lemma diffTableHashes_in_lookup hs os head other t :
  hs ≡ₚ map_to_list head -> os ≡ₚ map_to_list other ->
  diffTableHashes_in hs os head other !! t = diff_at (head !! t) (other !! t).
Proof.
  intros Hhs Hos. unfold diffTableHashes_in.
  assert (NoDup hs.*1) by (rewrite Hhs; apply NoDup_fst_map_to_list).
  assert (NoDup os.*1) by (rewrite Hos; apply NoDup_fst_map_to_list).
  assert (Hh : list_to_map hs = head).
  { rewrite <- (list_to_map_to_list head). by apply list_to_map_proper. }
  assert (Ho : list_to_map os = other).
  { rewrite <- (list_to_map_to_list other). by apply list_to_map_proper. }
  rewrite foldl_diff_other, foldl_diff_head, Hh, Ho by done.
  rewrite lookup_empty.
  destruct (head !! t) as [hh|], (other !! t) as [h|]; cbn; try done.
  by destruct (decide (h = hh)).
Qed.

Lemma diffTableHashes_lookup head other t :
  diffTableHashes head other !! t = diff_at (head !! t) (other !! t).
Proof. by apply diffTableHashes_in_lookup. Qed.

Lemma diff_at_Some hh h d :
  diff_at hh h = Some d <-> hh <> h /\ d = default zeroHash h.
Proof.
  destruct hh as [hh|], h as [h|]; cbn.
  - destruct (decide (h = hh)) as [->|Hne].
    + split; [done | by intros [? _]].
    + split; [intros [= <-]; split; [by intros [= ->] | done] | by intros [_ ->]].
  - split; [by intros [= <-] | by intros [_ ->]].
  - split; [by intros [= <-] | by intros [_ ->]].
  - split; [done | by intros [? _]].
Qed.

(** X1. The map that [diffTableHashes] returns is the same for every order
    in which the two range statements yield the entries of the two maps. *)
Theorem diffTableHashes_order hs os head other :
  hs ≡ₚ map_to_list head -> os ≡ₚ map_to_list other ->
  diffTableHashes_in hs os head other = diffTableHashes head other.
Proof.
  intros Hhs Hos. apply map_eq. intros t. unfold diffTableHashes.
  by rewrite !diffTableHashes_in_lookup.
Qed.

(** X2. A table name is a key of the difference exactly when the two maps
    disagree on it (it is in one only, or in both with different hashes);
    its value is then the hash of the other map, or the zero hash when the
    other map does not have the name. *)
Theorem diffTableHashes_entry head other t d :
  diffTableHashes head other !! t = Some d <->
  head !! t <> other !! t /\ d = default zeroHash (other !! t).
Proof. rewrite diffTableHashes_lookup. apply diff_at_Some. Qed.

(** X3. The difference is empty exactly when the two maps are equal. *)
Theorem diffTableHashes_empty head other :
  diffTableHashes head other = ∅ <-> head = other.
Proof.
  split.
  - intros Hd. apply map_eq. intros t.
    assert (Ht : diffTableHashes head other !! t = None) by (by rewrite Hd).
    rewrite diffTableHashes_lookup in Ht.
    destruct (head !! t) as [hh|], (other !! t) as [h|]; cbn in Ht; try done.
    destruct (decide (h = hh)); congruence.
  - intros ->. apply map_eq. intros t. rewrite diffTableHashes_lookup, lookup_empty.
    destruct (other !! t) as [h|]; cbn; [|done]. by destruct (decide (h = h)).
Qed.

(** X4. A deleted table is recorded with the zero hash: for a table of the
    head map whose hash is not zero, the difference is the same whether the
    other map lacks the table or has it with the zero hash. *)
Theorem diffTableHashes_deletion_as_zero head other t hh :
  head !! t = Some hh -> hh <> zeroHash ->
  diffTableHashes head (delete t other) = diffTableHashes head (<[t := zeroHash]> other) /\
  diffTableHashes head (delete t other) !! t = Some zeroHash.
Proof.
  intros Ht Hnz. split.
  - apply map_eq. intros u. rewrite !diffTableHashes_lookup.
    destruct (decide (t = u)) as [<-|Hne].
    + rewrite lookup_delete_eq, lookup_insert_eq, Ht. cbn.
      by rewrite decide_False by done.
    + by rewrite lookup_delete_ne, lookup_insert_ne.
  - by rewrite diffTableHashes_lookup, lookup_delete_eq, Ht.
Qed.

Lemma mapTableHashes_range_ok root names : forall m,
  Forall (hashed root) names ->
  mapTableHashes_range root names m =
  Ret (Some (foldl (fun m n => <[n := hashOf root n]> m) m names), None).
Proof.
  induction names as [|n names IH]; intros m Hall; [done|].
  apply Forall_cons in Hall as [[h Hn] Hall]. cbn [mapTableHashes_range foldl].
  unfold hashOf at 2. rewrite Hn. cbn. by apply IH.
Qed.

Lemma mapTableHashes_range_inv root names : forall m r err,
  mapTableHashes_range root names m = Ret (r, err) ->
  match r with
  | Some m' => err = None /\ Forall (hashed root) names
  | None => err <> None
  end.
Proof.
  induction names as [|n names IH]; intros m r err; cbn [mapTableHashes_range].
  { by intros [= <- <-]. }
  destruct (GetTableHash root n) as [[h ok] e] eqn:Hn.
  destruct e as [e|]; [by intros [= <- <-]|].
  destruct ok; cbn [negb]; [|done].
  intros Hrun. apply IH in Hrun. destruct r; [|done].
  destruct Hrun as [-> Hall]. split; [done|]. constructor; [by exists h | done].
Qed.

Lemma foldl_insert_lookup (f : string -> Hash) names : forall (m : gmap string Hash) t,
  foldl (fun m n => <[n := f n]> m) m names !! t =
  if decide (t ∈ names) then Some (f t) else m !! t.
Proof.
  induction names as [|n names IH]; intros m t; cbn [foldl].
  { rewrite decide_False; [done | apply not_elem_of_nil]. }
  rewrite IH. destruct (decide (t ∈ names)) as [Hin|Hni].
  - rewrite decide_True; [done | by right].
  - destruct (decide (t = n)) as [->|Hne].
    + rewrite lookup_insert_eq. rewrite decide_True; [done | by left].
    + rewrite lookup_insert_ne by done. rewrite decide_False; [done|].
      by intros [?|?]%elem_of_cons.
Qed.

(** X5. [mapTableHashes] returns a map exactly when [GetTableNames] and
    every call of [GetTableHash] for a listed name return no error and the
    table is found; the keys of the map are then the listed names, each with
    the hash that [GetTableHash] gave for it. *)
Theorem mapTableHashes_map root m :
  mapTableHashes root = Ret (Some m, None) <->
  exists names,
    GetTableNames root = (names, None) /\
    Forall (fun n => exists h, GetTableHash root n = (h, true, None)) names /\
    forall t, m !! t = if decide (t ∈ names) then Some (GetTableHash root t).1.1 else None.
Proof.
  unfold mapTableHashes. destruct (GetTableNames root) as [names [e|]].
  { split; [done | by intros (? & [= _ ?] & _)]. }
  split.
  - intros Hrun. exists names. split; [done|].
    pose proof (mapTableHashes_range_inv _ _ _ _ _ Hrun) as [_ Hall].
    split; [done|]. rewrite (mapTableHashes_range_ok _ _ _ Hall) in Hrun.
    injection Hrun as <-. intros t.
    by rewrite (foldl_insert_lookup (hashOf root)), lookup_empty.
  - intros (names' & [= <-] & Hall & Hm).
    rewrite (mapTableHashes_range_ok _ _ _ Hall). do 2 f_equal. f_equal.
    apply map_eq. intros t.
    by rewrite (foldl_insert_lookup (hashOf root)), lookup_empty, Hm.
Qed.

(** X6. When [mapTableHashes] returns, it returns a map or an error, never
    both and never neither. *)
Theorem mapTableHashes_map_or_error root r err :
  mapTableHashes root = Ret (r, err) -> (r = None <-> err <> None).
Proof.
  unfold mapTableHashes. destruct (GetTableNames root) as [names [e|]].
  { by intros [= <- <-]. }
  intros Hrun%mapTableHashes_range_inv. destruct r.
  - destruct Hrun as [-> _]. done.
  - done.
Qed.

Lemma mapTableHashes_range_error root pre name post h ok e : forall m,
  Forall (hashed root) pre ->
  GetTableHash root name = (h, ok, Some e) ->
  mapTableHashes_range root (pre ++ name :: post) m = Ret (None, Some e).
Proof.
  induction pre as [|n pre IH]; intros m Hpre Hname; cbn [mapTableHashes_range app].
  - by rewrite Hname.
  - apply Forall_cons in Hpre as [[hn Hn] Hpre]. rewrite Hn. cbn. by apply IH.
Qed.

(** X7. The first listed name for which [GetTableHash] returns an error
    ends [mapTableHashes] with that error and no map: the error is looked at
    before the flag, so there is no panic even when the table is reported
    absent, and nothing depends on what [GetTableHash] would give for the
    names after it. *)
Theorem mapTableHashes_first_error root pre name post h ok e :
  GetTableNames root = (pre ++ name :: post, None) ->
  Forall (fun n => exists h, GetTableHash root n = (h, true, None)) pre ->
  GetTableHash root name = (h, ok, Some e) ->
  mapTableHashes root = Ret (None, Some e).
Proof.
  intros Hnames Hpre Hname. unfold mapTableHashes. rewrite Hnames.
  by eapply mapTableHashes_range_error.
Qed.

Lemma stomped_from (merged : gmap string Hash) (ws : list (string * Hash)) : forall acc,
  foldl (fun stompedTables '(tName, _) =>
           match merged !! tName with
           | Some _ => stompedTables ++ [tName]
           | None => stompedTables
           end) acc ws =
  acc ++ filter (fun t => is_Some (merged !! t)) ws.*1.
Proof.
  induction ws as [|[t d] ws IH]; intros acc; cbn [foldl].
  { by rewrite app_nil_r. }
  rewrite IH. cbn [fmap list_fmap fst]. rewrite filter_cons.
  destruct (merged !! t) as [x|] eqn:Ht.
  - rewrite decide_True by eauto. by rewrite <- (assoc_L (++)).
  - rewrite decide_False; [done|]. by intros [? ?].
Qed.

Lemma stomped_filter (merged : gmap string Hash) (ws : list (string * Hash)) :
  stomped merged ws = filter (fun t => is_Some (merged !! t)) ws.*1.
Proof. unfold stomped. by rewrite stomped_from. Qed.

Section WithCollaborators.
Context `{D : Doltdb} `{F : Filesys}.

(** What [MergeWouldStompChanges] returns when its five fallible steps
    succeed. *)
Lemma MergeWouldStompChanges_ok workingRoot mergeCommit dbData headRoot mergeRoot hm wm mm :
  HeadRoot (Ddb dbData) (Rsr dbData) = (Some headRoot, None) ->
  GetRootValue mergeCommit = (mergeRoot, None) ->
  mapTableHashes (tables headRoot) = Ret (Some hm, None) ->
  mapTableHashes (tables workingRoot) = Ret (Some wm, None) ->
  mapTableHashes (tables mergeRoot) = Ret (Some mm, None) ->
  MergeWouldStompChanges workingRoot mergeCommit dbData =
  Ret (Some (stomped (diffTableHashes hm mm) (map_to_list (diffTableHashes hm wm))),
       Some (diffTableHashes hm wm), None).
Proof.
  intros Hhead Hmerge Hh Hw Hm. unfold MergeWouldStompChanges.
  rewrite Hhead, Hmerge. cbn [mapTableHashes_of]. rewrite Hh. cbn.
  rewrite Hw. cbn. rewrite Hm. reflexivity.
Qed.

Lemma stomped_elem (hm wm mm : gmap string Hash) t :
  t ∈ stomped (diffTableHashes hm mm) (map_to_list (diffTableHashes hm wm)) <->
  hm !! t <> wm !! t /\ hm !! t <> mm !! t.
Proof.
  rewrite stomped_filter, list_elem_of_filter.
  rewrite list_elem_of_fmap. split.
  - intros [[d Hd] ([t' d'] & -> & Hin)]. cbn in *.
    apply elem_of_map_to_list in Hin.
    rewrite diffTableHashes_lookup in Hd, Hin.
    apply diff_at_Some in Hd as [? _]. apply diff_at_Some in Hin as [? _]. done.
  - intros [Hw Hm]. split.
    + exists (default zeroHash (mm !! t)). rewrite diffTableHashes_lookup.
      by apply diff_at_Some.
    + exists (t, default zeroHash (wm !! t)). split; [done|].
      apply elem_of_map_to_list. rewrite diffTableHashes_lookup. by apply diff_at_Some.
Qed.

Lemma stomped_NoDup (merged diffs : gmap string Hash) :
  NoDup (stomped merged (map_to_list diffs)).
Proof. rewrite stomped_filter. apply NoDup_filter, NoDup_fst_map_to_list. Qed.

Lemma stomped_Permutation (merged : gmap string Hash) (ws ws' : list (string * Hash)) :
  ws ≡ₚ ws' -> stomped merged ws ≡ₚ stomped merged ws'.
Proof. intros Hp. rewrite !stomped_filter. by rewrite Hp. Qed.

(** X8. When the head root, the merge root and the three maps of table
    hashes are obtained, [MergeWouldStompChanges] returns, with the
    difference between head and working, the names of the tables whose hash
    differs between head and working and also between head and merge, each
    once; another order of the range over the difference gives the same
    names in another order. *)
Theorem MergeWouldStompChanges_stomped workingRoot mergeCommit dbData
    headRoot mergeRoot hm wm mm :
  HeadRoot (Ddb dbData) (Rsr dbData) = (Some headRoot, None) ->
  GetRootValue mergeCommit = (mergeRoot, None) ->
  mapTableHashes (tables headRoot) = Ret (Some hm, None) ->
  mapTableHashes (tables workingRoot) = Ret (Some wm, None) ->
  mapTableHashes (tables mergeRoot) = Ret (Some mm, None) ->
  exists stompedTables,
    MergeWouldStompChanges workingRoot mergeCommit dbData =
      Ret (Some stompedTables, Some (diffTableHashes hm wm), None) /\
    NoDup stompedTables /\
    (forall t, t ∈ stompedTables <-> hm !! t <> wm !! t /\ hm !! t <> mm !! t) /\
    (forall ws, ws ≡ₚ map_to_list (diffTableHashes hm wm) ->
       stomped (diffTableHashes hm mm) ws ≡ₚ stompedTables).
Proof.
  intros Hhead Hmerge Hh Hw Hm. eexists. split.
  - by eapply MergeWouldStompChanges_ok.
  - split; [apply stomped_NoDup|]. split; [apply stomped_elem|].
    intros ws Hws. by apply stomped_Permutation.
Qed.

(** X9. A table that the working root and the merge root changed in the
    same way is still reported: when the working root and the merge root
    have the same table hashes, the tables reported are all the tables of the
    difference between head and working. *)
Theorem MergeWouldStompChanges_same_change workingRoot mergeCommit dbData
    headRoot mergeRoot hm wm :
  HeadRoot (Ddb dbData) (Rsr dbData) = (Some headRoot, None) ->
  GetRootValue mergeCommit = (mergeRoot, None) ->
  mapTableHashes (tables headRoot) = Ret (Some hm, None) ->
  mapTableHashes (tables workingRoot) = Ret (Some wm, None) ->
  mapTableHashes (tables mergeRoot) = Ret (Some wm, None) ->
  exists stompedTables,
    MergeWouldStompChanges workingRoot mergeCommit dbData =
      Ret (Some stompedTables, Some (diffTableHashes hm wm), None) /\
    forall t, t ∈ stompedTables <-> is_Some (diffTableHashes hm wm !! t).
Proof.
  intros Hhead Hmerge Hh Hw Hm. eexists. split.
  - by eapply MergeWouldStompChanges_ok.
  - intros t. rewrite stomped_elem, diffTableHashes_lookup. split.
    + intros [Hne _]. exists (default zeroHash (wm !! t)). by apply diff_at_Some.
    + intros [d Hd]. apply diff_at_Some in Hd as [? _]. done.
Qed.

(** X10. Without changes in the working root nothing is reported: when
    the working root has the table hashes of the head root, the list of
    tables and the difference are empty, whatever the merge root holds. *)
Theorem MergeWouldStompChanges_clean workingRoot mergeCommit dbData
    headRoot mergeRoot hm mm :
  HeadRoot (Ddb dbData) (Rsr dbData) = (Some headRoot, None) ->
  GetRootValue mergeCommit = (mergeRoot, None) ->
  mapTableHashes (tables headRoot) = Ret (Some hm, None) ->
  mapTableHashes (tables workingRoot) = Ret (Some hm, None) ->
  mapTableHashes (tables mergeRoot) = Ret (Some mm, None) ->
  MergeWouldStompChanges workingRoot mergeCommit dbData = Ret (Some [], Some ∅, None).
Proof.
  intros Hhead Hmerge Hh Hw Hm.
  rewrite (MergeWouldStompChanges_ok _ _ _ _ _ _ _ _ Hhead Hmerge Hh Hw Hm).
  assert (Hd : diffTableHashes hm hm = ∅).
  { apply map_eq. intros t. rewrite diffTableHashes_lookup, lookup_empty.
    destruct (hm !! t) as [h|]; cbn; [|done]. by destruct (decide (h = h)). }
  rewrite Hd, map_to_list_empty. reflexivity.
Qed.

(** X11. [UpdateStagedRootWithVErr] never reports a failed write of a
    value: the error [UpdateStagedRoot] hands it is [ErrStateUpdate] for
    every failure of the writer, so, the two errors being different, every
    failure is reported as a failed update of the staged root state. *)
Theorem UpdateStagedRootWithVErr_message ddb rsw updatedRoot :
  ErrStateUpdate <> ErrNomsIO ->
  UpdateStagedRootWithVErr ddb rsw updatedRoot =
  match rsw_UpdateStagedRoot rsw updatedRoot with
  | Some _ => Some "fatal: failed to update the staged root state"%string
  | None => None
  end.
Proof.
  intros Hne. unfold UpdateStagedRootWithVErr, UpdateStagedRoot.
  destruct (rsw_UpdateStagedRoot rsw updatedRoot) as [e|].
  - rewrite decide_False by (by intros [= ?]). by rewrite decide_True.
  - by rewrite !decide_False.
Qed.

Section WithCodec.
Context (MarshalIndent : RepoState -> bytes * option error).

(** X12. Without a merge in progress [AbortMerge] and [GetMergeCommit]
    panic with a nil dereference: both read a field through the nil pointer
    [Merge], [AbortMerge] before it changes or saves anything. *)
Theorem AbortMerge_no_merge rs fs :
  IsMergeActive rs = false ->
  AbortMerge MarshalIndent rs fs = Panic nil_deref /\
  GetMergeCommit rs = Panic nil_deref.
Proof.
  unfold IsMergeActive, AbortMerge, GetMergeCommit. by destruct (Merge rs).
Qed.

(** X13. [AbortMerge] undoes [StartMerge] in memory, whether or not the
    two writes of the state file succeed: the state it leaves has no merge in
    progress and the working value that [StartMerge] found, whatever the
    working value has become since, and its other fields are unchanged. *)
Theorem StartMerge_AbortMerge commit rs fs w :
  (exists err fs2,
     AbortMerge MarshalIndent
       (set_working w (StartMerge MarshalIndent commit rs fs).1.1)
       (StartMerge MarshalIndent commit rs fs).2
     = Ret (set_Merge None rs, err, fs2)) /\
  (IsMergeActive rs = false -> set_Merge None rs = rs).
Proof.
  split.
  - unfold StartMerge. destruct (Save _ _ fs) as [err1 fs1]. cbn [fst snd].
    unfold AbortMerge, ClearMerge. cbn.
    destruct (Save _ _ fs1) as [err2 fs2]. by exists err2, fs2.
  - unfold IsMergeActive, set_Merge. by destruct rs as [? [m|] ? ? ? ?].
Qed.

(** X14. [AddRemote] writes to the map of remotes: on a state whose map
    is nil it panics, and on the state that [CreateRepoState] returns it
    leaves the map with the one remote, under its name. *)
Theorem AddRemote_map r :
  (forall rs, Remotes rs = None -> AddRemote r rs = Panic assignment_to_nil_map) /\
  (forall fs br rootHash rs fs',
     CreateRepoState MarshalIndent fs br rootHash = (Some rs, None, fs') ->
     exists rs', AddRemote r rs = Ret rs' /\ Remotes rs' = Some {[ Name r := r ]}).
Proof.
  split.
  - intros rs Hnil. unfold AddRemote. by rewrite Hnil.
  - intros fs br rootHash rs fs'. unfold CreateRepoState.
    destruct (ref_Parse br) as [headRef [e|]]; [done|].
    destruct (Save _ _ fs) as [[e|] fs1]; [done|].
    intros [= <- <-]. eexists. split; [reflexivity|]. cbn.
    by rewrite insert_empty.
Qed.

End WithCodec.

(** X15. The hashes [GetGCKeepers] returns start with the hash of the
    working root and the staged hash; without a merge in progress there are
    no others, and with one they are followed by the hash of the merge commit
    and the parsed pre-merge working hash, whose value was read and is not
    nil. *)
Theorem GetGCKeepers_keepers rsr ddb keepers err :
  GetGCKeepers rsr ddb = (Some keepers, err) ->
  err = None /\
  exists workingHash,
    Root_HashOf (rsr_WorkingRoot rsr).1 = (workingHash, None) /\
    if rsr_IsMergeActive rsr then
      exists spec cm ch val,
        NewCommitSpec (rsr_GetMergeCommit rsr) = (spec, None) /\
        Resolve ddb spec = (cm, None) /\
        Commit_HashOf cm = (ch, None) /\
        ReadValue ddb (hash_Parse (rsr_GetPreMergeWorking rsr)) = (Some val, None) /\
        keepers = [workingHash; rsr_StagedHash rsr; ch;
                   hash_Parse (rsr_GetPreMergeWorking rsr)]
    else keepers = [workingHash; rsr_StagedHash rsr].
Proof.
  unfold GetGCKeepers.
  destruct (rsr_WorkingRoot rsr) as [workingRoot [e|]]; [done|]. cbn [fst].
  destruct (Root_HashOf workingRoot) as [workingHash [e|]]; [done|].
  destruct (rsr_IsMergeActive rsr).
  - destruct (NewCommitSpec _) as [spec [e|]]; [done|].
    destruct (Resolve ddb spec) as [cm [e|]] eqn:Hcm; [done|].
    destruct (Commit_HashOf cm) as [ch [e|]] eqn:Hch; [done|].
    destruct (ReadValue ddb _) as [[val|] [e|]] eqn:Hval; try done.
    intros [= <- <-]. split; [done|]. exists workingHash. split; [done|].
    exists spec, cm, ch, val. by rewrite Hcm, Hch.
  - intros [= <- <-]. split; [done|]. by exists workingHash.
Qed.

End WithCollaborators.
End RepoFacts.

(** ** More on the document cursor *)

Section JsonMore.
Import Tree Position Json.
Context `{Sc : Scanning} `{Sk : Seeking}.

Lemma set_scanner_same (j : JsonCursor) : set_scanner (jsonScanner j) j = j.
Proof. by destruct j. Qed.

Lemma AdvanceToLocation_stop fuel : forall j path h j' h',
  AdvanceToLocation fuel j path h = Ret (None, j', h') ->
  ~ compareJsonLocations (currentPath (jsonScanner j')) path < 0.
Proof.
  induction fuel as [|fuel IH]; intros j path h j' h';
    cbn [AdvanceToLocation];
    destruct (compareJsonLocations (currentPath (jsonScanner j)) path <? 0) eqn:Hlt.
  - done.
  - mred. intros [= <- <-]. apply Z.ltb_ge in Hlt. lia.
  - destruct (scanner_AdvanceToNextLocation (jsonScanner j)) as [[[|msg]|] s] eqn:Hscan; mred;
      cbn [cur set_scanner]; try done.
    + destruct (load (cur j) h) as [[c h0]| |]; try done.
      destruct (Seek (parent c) (key path) h0) as [[[e|] h1]| |]; try done.
      destruct (load (cur j) h1) as [[c1 h1']| |]; try done.
      destruct (currentRef (parent c1) h1') as [[ref h1'']| |]; try done.
      destruct (fetchChild (nrw c1) ref) as [n err].
      destruct (modify (cur j) (set_nd n) h1'') as [[[] h2]| |]; try done.
      destruct err as [e|]; [done|].
      destruct (getPreviousKey (cur j) h2) as [[[prev [e|]] h3]| |]; try done.
      destruct (currentValue (cur j) h3) as [[v h3']| |]; try done.
      apply IH.
    + apply IH.
  - mred. intros [= <- <-]. apply Z.ltb_ge in Hlt. lia.
Qed.

(** X16. [AdvanceToLocation] is idempotent: after a call that returned a
    nil error, a second call with the same target returns a nil error at
    once, and leaves the cursor and the store as they are. *)
Theorem AdvanceToLocation_again fuel fuel' j path h j' h' :
  AdvanceToLocation fuel j path h = Ret (None, j', h') ->
  AdvanceToLocation fuel' j' path h' = Ret (None, j', h').
Proof.
  intros Hstop%AdvanceToLocation_stop.
  assert (Hlt : (compareJsonLocations (currentPath (jsonScanner j')) path <? 0) = false)
    by (apply Z.ltb_ge; lia).
  destruct fuel'; cbn [AdvanceToLocation]; by rewrite Hlt.
Qed.

(** X17. A call of [AdvanceToNextLocation] that reports no crossed
    boundary has made one call of the scanner and nothing else: the error
    and the scanner are those of that call, the error is not [io.EOF], and
    the tree cursor and the store are untouched. *)
Theorem AdvanceToNextLocation_not_crossed fuel j h e j' h' :
  AdvanceToNextLocation fuel j h = Ret (false, e, j', h') ->
  scanner_AdvanceToNextLocation (jsonScanner j) = (e, jsonScanner j') /\
  e <> Some io_EOF /\ cur j' = cur j /\ h' = h.
Proof.
  unfold AdvanceToNextLocation. destruct fuel as [|fuel]; [done|].
  cbn [AdvanceToNextLocation_from].
  destruct (scanner_AdvanceToNextLocation (jsonScanner j)) as [err s].
  destruct err as [[|msg]|]; mred; cbn [cur set_scanner].
  - destruct (advance (cur j) h) as [[[e1|] h1]| |]; try done.
    destruct (Valid (cur j) h1) as [[[] h2]| |]; try done; cbn [negb].
    destruct (currentValue (cur j) h2) as [[v h3]| |]; try done.
    intros Hrun. by apply AdvanceToNextLocation_from_crossed in Hrun.
  - by intros [= <- <- <-].
  - by intros [= <- <- <-].
Qed.

Lemma AdvanceToNextLocation_step fuel j h s :
  scanner_AdvanceToNextLocation (jsonScanner j) = (None, s) ->
  AdvanceToNextLocation (S fuel) j h = Ret (false, None, set_scanner s j, h).
Proof.
  intros Hs. unfold AdvanceToNextLocation. cbn [AdvanceToNextLocation_from].
  by rewrite Hs.
Qed.

Lemma parseChunk_step fuel f h s :
  scanner_AdvanceToNextLocation (jsonScanner (f_j f)) = (None, s) ->
  parseChunk (S fuel) f h =
  Ret (None, {| f_j := set_scanner s (f_j f); result := result f;
                f_jsonBuffer := f_jsonBuffer f; startPos := startPos f |}, h).
Proof.
  intros Hs. unfold parseChunk. mred. by rewrite (AdvanceToNextLocation_step _ _ _ _ Hs).
Qed.

Lemma NextValue_loop_scans fuel path n s s' :
  scans path n s s' ->
  forall k f h,
    (n <= k)%nat -> jsonScanner (f_j f) = s ->
    NextValue_loop (S fuel) k path f h =
    match slice (f_jsonBuffer f) (startPos f) (valueOffset s') with
    | Ret res => Ret (result f ++ res, None, set_scanner s' (f_j f), h)
    | Panic msg => Panic msg
    | Diverge => Diverge
    end.
Proof.
  induction 1 as [s Hstop|n s s1 s' Hless Hstep _ IH]; intros k f h Hk Hs.
  - assert (Hlt : (compareJsonLocations (currentPath (jsonScanner (f_j f))) path <? 0) = false)
      by (rewrite Hs; apply Z.ltb_ge; lia).
    destruct k; cbn [NextValue_loop]; rewrite Hlt; mred; unfold lift;
      rewrite <- Hs, set_scanner_same; by destruct (slice _ _ _).
  - assert (Hlt : (compareJsonLocations (currentPath (jsonScanner (f_j f))) path <? 0) = true)
      by (rewrite Hs; apply Z.ltb_lt; lia).
    destruct k as [|k]; [lia|]. cbn [NextValue_loop]. rewrite Hlt. mred.
    rewrite (parseChunk_step fuel f h s1) by (by rewrite Hs).
    rewrite (IH k _ h); [|lia|reflexivity]. reflexivity.
Qed.

(** X18. When the value ends inside the current buffer, [NextValue]
    returns the bytes of the buffer between the offset of the scanner before
    the call and its offset after, and does not touch the tree cursor: the
    scanner's first call and the calls made while the scan path is less than
    the captured path all return a nil error, and the store is unchanged. *)
Theorem NextValue_within_chunk fuel n j h s1 s' :
  atStartOfValue (jsonScanner j) = true ->
  scanner_AdvanceToNextLocation (jsonScanner j) = (None, s1) ->
  scans (currentPath (jsonScanner j)) n s1 s' ->
  (n <= S fuel)%nat ->
  NextValue (S fuel) j h =
  match slice (jsonBuffer (jsonScanner j)) (valueOffset (jsonScanner j)) (valueOffset s') with
  | Ret res => Ret (res, None, set_scanner s' j, h)
  | Panic msg => Panic msg
  | Diverge => Diverge
  end.
Proof.
  intros Hstart Hstep Hscans Hn. unfold NextValue. rewrite Hstart. cbn [negb]. mred.
  rewrite (parseChunk_step fuel _ h s1) by done.
  by rewrite (NextValue_loop_scans fuel _ n s1 s' Hscans).
Qed.

(** X19. When the target lies inside the current buffer,
    [AdvanceToLocation] only steps the scanner: it returns a nil error with
    the scanner at the first location reached that is not less than the
    target, and does not touch the tree cursor or the store. *)
Theorem AdvanceToLocation_within_chunk path n s s' :
  scans path n s s' ->
  forall fuel j h,
    jsonScanner j = s -> (n <= fuel)%nat ->
    AdvanceToLocation fuel j path h = Ret (None, set_scanner s' j, h).
Proof.
  induction 1 as [s Hstop|n s s1 s' Hless Hstep _ IH]; intros fuel j h Hs Hn.
  - assert (Hlt : (compareJsonLocations (currentPath (jsonScanner j)) path <? 0) = false)
      by (rewrite Hs; apply Z.ltb_ge; lia).
    destruct fuel; cbn [AdvanceToLocation]; rewrite Hlt, <- Hs, set_scanner_same; done.
  - assert (Hlt : (compareJsonLocations (currentPath (jsonScanner j)) path <? 0) = true)
      by (rewrite Hs; apply Z.ltb_lt; lia).
    destruct fuel as [|fuel]; [lia|]. cbn [AdvanceToLocation]. rewrite Hlt, Hs, Hstep.
    rewrite (IH fuel (set_scanner s1 j) h); [done | done | lia].
Qed.

(** X20. At the end of the tree [NextValue] returns [io.EOF] and no
    bytes: when the scanner is at the end of its buffer and the tree cursor
    is no longer valid after advancing, the bytes of the buffer from the start
    of the value on are not returned. *)
Theorem NextValue_end_of_tree fuel j h s h1 :
  atStartOfValue (jsonScanner j) = true ->
  scanner_AdvanceToNextLocation (jsonScanner j) = (Some io_EOF, s) ->
  advance (cur j) h = Ret (None, h1) ->
  JsonCursor_Valid j h1 = Ret (false, h1) ->
  NextValue (S fuel) j h = Ret ([], Some io_EOF, set_scanner s j, h1).
Proof.
  intros Hstart Hstep Hadv Hvalid. unfold NextValue. rewrite Hstart. cbn [negb]. mred.
  unfold parseChunk, AdvanceToNextLocation. cbn [AdvanceToNextLocation_from f_j].
  rewrite Hstep. mred. cbn [cur set_scanner]. rewrite Hadv.
  unfold JsonCursor_Valid in Hvalid. by rewrite Hvalid.
Qed.

Lemma AdvanceToNextLocation_valid fuel j h b j' h' :
  Valid (cur j) h = Ret (true, h) ->
  AdvanceToNextLocation fuel j h = Ret (b, None, j', h') ->
  Valid (cur j') h' = Ret (true, h').
Proof.
  intros Hv Hrun. unfold AdvanceToNextLocation in Hrun.
  pose proof (AdvanceToNextLocation_from_cur _ _ _ _ _ _ _ _ Hrun) as Hcur.
  apply AdvanceToNextLocation_from_success in Hrun as [[_ ->]|[_ Hv']]; [|done].
  by rewrite Hcur.
Qed.

Lemma NextValue_loop_valid fuel path n : forall f h res j' h',
  Valid (cur (f_j f)) h = Ret (true, h) ->
  NextValue_loop fuel n path f h = Ret (res, None, j', h') ->
  Valid (cur j') h' = Ret (true, h').
Proof.
  induction n as [|n IH]; intros f h res j' h' Hv; cbn [NextValue_loop];
    destruct (compareJsonLocations (currentPath (jsonScanner (f_j f))) path <? 0).
  - done.
  - mred. unfold lift. destruct (slice _ _ _); try done. cbn. by intros [= _ <- <-].
  - mred. destruct (parseChunk fuel f h) as [[[[e|] f1] h1]| |] eqn:Hchunk; try done.
    apply parseChunk_success in Hchunk as [b Hadv].
    apply IH. by eapply AdvanceToNextLocation_valid.
  - mred. unfold lift. destruct (slice _ _ _); try done. cbn. by intros [= _ <- <-].
Qed.

(** X21. [NextValue] keeps a valid cursor valid: when [Valid] holds
    before a call that returns a nil error, it holds after the call. *)
Theorem NextValue_keeps_valid fuel j h res j' h' :
  JsonCursor_Valid j h = Ret (true, h) ->
  NextValue fuel j h = Ret (res, None, j', h') ->
  JsonCursor_Valid j' h' = Ret (true, h').
Proof.
  unfold JsonCursor_Valid, NextValue. intros Hv.
  destruct (negb _); [done|]. mred.
  destruct (parseChunk fuel _ h) as [[[[e|] f1] h1]| |] eqn:Hchunk; try done.
  apply parseChunk_success in Hchunk as [b Hadv]. cbn [f_j] in Hadv.
  apply NextValue_loop_valid. by eapply AdvanceToNextLocation_valid.
Qed.

Lemma head_slice (b : bytes) lo hi res x :
  slice b lo hi = Ret res -> b !! Z.to_nat lo = Some x -> res <> [] -> head res = Some x.
Proof.
  unfold slice. destruct (_ && _); [|done]. intros [= <-] Hx Hne.
  destruct (Z.to_nat hi - Z.to_nat lo)%nat as [|k] eqn:Hk; [done|].
  rewrite (drop_S _ _ _ Hx). reflexivity.
Qed.

Lemma NextValue_loop_head fuel path (buf0 : bytes) start0 x n : forall f h res j' h',
  buf0 !! Z.to_nat start0 = Some x ->
  (result f = [] /\ f_jsonBuffer f = buf0 /\ startPos f = start0) \/
    head (result f) = Some x ->
  NextValue_loop fuel n path f h = Ret (res, None, j', h') ->
  res <> [] -> head res = Some x.
Proof.
  assert (Hend : forall f h res j' h',
    buf0 !! Z.to_nat start0 = Some x ->
    (result f = [] /\ f_jsonBuffer f = buf0 /\ startPos f = start0) \/
      head (result f) = Some x ->
    (last ← lift (slice (f_jsonBuffer f) (startPos f) (valueOffset (jsonScanner (f_j f))));
     mret (result f ++ last, None, f_j f)) h = Ret (res, @None error, j', h') ->
    res <> [] -> head res = Some x).
  { intros f h res j' h' Hx Hinv. mred. unfold lift.
    destruct (slice _ _ _) as [last| |] eqn:Hslice; try done. cbn.
    intros [= <- _ _] Hne. destruct Hinv as [(Hr & Hb & Hs)|Hhead].
    - rewrite Hr in *. rewrite Hb, Hs in Hslice. by eapply head_slice.
    - destruct (result f); [done|]. done. }
  induction n as [|n IH]; intros f h res j' h' Hx Hinv; cbn [NextValue_loop];
    destruct (compareJsonLocations (currentPath (jsonScanner (f_j f))) path <? 0).
  - done.
  - by apply Hend.
  - mred. destruct (parseChunk fuel f h) as [[[[e|] f1] h1]| |] eqn:Hchunk; try done.
    apply parseChunk_gathers in Hchunk as [b [_ Hg]].
    apply IH; [done|]. destruct b.
    + destruct Hg as (_ & Hres & _). right. rewrite Hres.
      destruct Hinv as [(Hr & Hb & Hs)|Hhead].
      * rewrite Hr, Hb, Hs. cbn. by rewrite (drop_S _ _ _ Hx).
      * destruct (result f); [done|]. done.
    + destruct Hg as (-> & -> & ->). done.
  - by apply Hend.
Qed.

Lemma at_index_Ret (b : bytes) i x : at_index b i = Ret x -> b !! Z.to_nat i = Some x.
Proof.
  unfold at_index. destruct (_ && _); [|done].
  destruct (b !! Z.to_nat i); [by intros [= ->] | done].
Qed.

(** X22. The bytes [NextValue] returns start with the byte that
    [nextCharacter] gave before the call: when [nextCharacter] returns a byte
    and [NextValue] then returns a nil error and bytes, however many chunk
    boundaries it crossed, the first of them is that byte. *)
Theorem NextValue_first_byte fuel j h res j' h' x :
  nextCharacter j = Ret x ->
  NextValue fuel j h = Ret (res, None, j', h') ->
  res <> [] -> head res = Some x.
Proof.
  intros Hx%at_index_Ret. unfold NextValue. destruct (negb _); [done|]. mred.
  destruct (parseChunk fuel _ h) as [[[[e|] f1] h1]| |] eqn:Hchunk; try done.
  apply parseChunk_gathers in Hchunk as [b [_ Hg]]. cbn [f_j result f_jsonBuffer startPos] in Hg.
  apply (NextValue_loop_head _ _ _ _ _ _ _ _ _ _ _ Hx). destruct b.
  - destruct Hg as (_ & Hres & _). right. rewrite Hres. cbn. by rewrite (drop_S _ _ _ Hx).
  - left. by destruct Hg as (-> & -> & ->).
Qed.



Lemma AdvanceToLocation_cur fuel : forall j path h e j' h',
  AdvanceToLocation fuel j path h = Ret (e, j', h') -> cur j' = cur j.
Proof.
  induction fuel as [|fuel IH]; intros j path h e j' h';
    cbn [AdvanceToLocation];
    destruct (compareJsonLocations (currentPath (jsonScanner j)) path <? 0).
  - done.
  - mred. by intros [= _ <- _].
  - destruct (scanner_AdvanceToNextLocation (jsonScanner j)) as [[[|msg]|] s]; mred;
      cbn [cur set_scanner].
    + destruct (load (cur j) h) as [[c h0]| |]; try done.
      destruct (Seek (parent c) (key path) h0) as [[[e0|] h1]| |]; try done.
      { by intros [= _ <- _]. }
      destruct (load (cur j) h1) as [[c1 h1']| |]; try done.
      destruct (currentRef (parent c1) h1') as [[ref h1'']| |]; try done.
      destruct (fetchChild (nrw c1) ref) as [n err].
      destruct (modify (cur j) (set_nd n) h1'') as [[[] h2]| |]; try done.
      destruct err as [e0|]; [by intros [= _ <- _]|].
      destruct (getPreviousKey (cur j) h2) as [[[prev [e0|]] h3]| |]; try done.
      { by intros [= _ <- _]. }
      destruct (currentValue (cur j) h3) as [[v h3']| |]; try done.
      intros Hrun. by apply IH in Hrun.
    + by intros [= _ <- _].
    + intros Hrun. by apply IH in Hrun.
  - mred. by intros [= _ <- _].
Qed.

(** X23. [newJsonCursor] returns a cursor or an error, never both and
    never neither; the cursor it returns wraps the tree cursor that
    [newCursorAtKey] made, and its scan path is not less than the start
    location. *)
Theorem newJsonCursor_result newCursorAtKey fuel ns root startKey h0 r err h' :
  newJsonCursor newCursorAtKey fuel ns root startKey h0 = Ret (r, err, h') ->
  match r with
  | Some jcur =>
      err = None /\
      (exists h1, newCursorAtKey ns root (key startKey) h0 = Ret (cur jcur, None, h1)) /\
      ~ compareJsonLocations (GetCurrentPath jcur) startKey < 0
  | None => err <> None
  end.
Proof.
  unfold newJsonCursor. mred.
  destruct (newCursorAtKey ns root (key startKey) h0) as [[[c [e|]] h1]| |]; try done.
  { by intros [= <- <- _]. }
  destruct (getPreviousKey c h1) as [[[prev [e|]] h2]| |]; try done.
  { by intros [= <- <- _]. }
  destruct (currentValue c h2) as [[v h3]| |]; try done.
  destruct (AdvanceToLocation fuel _ startKey h3) as [[[[e|] j1] h4]| |] eqn:Hrun; try done.
  { by intros [= <- <- _]. }
  intros [= <- <- _]. split; [done|].
  pose proof (AdvanceToLocation_cur _ _ _ _ _ _ _ Hrun) as Hcur. cbn in Hcur.
  split; [exists h1; by rewrite Hcur|].
  by eapply AdvanceToLocation_stop.
Qed.

End JsonMore.

(** ** [NextValue] on an array *)

Section ArrayFacts.
Import Tree Json Reference.
#[local] Existing Instance scanning.

(** In the ordering of section 4.2 a path sorts before its extensions. *)
Lemma comparePaths_extend p x : comparePaths (p ++ [x]) p = 1.
Proof.
  induction p as [|y p IH]; [done|]. cbn [app comparePaths].
  by rewrite Nat.ltb_irrefl.
Qed.

(** C1. [NextValue] does not consume an array: called at the opening
    bracket of an array, at any path and in any buffer, it makes the one step
    that enters the array, finds the scan path, now the path of the first
    element, not less than the captured path, and returns with a nil error
    the opening bracket alone, the scanner standing at the start of the first
    element and the tree cursor untouched. *)
Theorem NextValue_array_truncated fuel (c : ptr) buf o p rest h :
  0 <= o -> drop (Z.to_nat o) buf = lbracket :: rest ->
  NextValue (S fuel)
    {| cur := c;
       jsonScanner := {| s_buffer := buf; s_offset := o;
                         s_path := {| path := p; offset := 0 |} |} |} h =
  Ret ([lbracket], None,
       {| cur := c;
          jsonScanner := {| s_buffer := buf; s_offset := o + 1;
                            s_path := {| path := p ++ [O]; offset := 0 |} |} |}, h).
Proof.
  intros Ho Hdrop.
  set (s1 := {| s_buffer := buf; s_offset := o + 1;
                s_path := {| path := p ++ [O]; offset := 0 |} |}).
  assert (Hstep : scanner_AdvanceToNextLocation
                    {| s_buffer := buf; s_offset := o;
                       s_path := {| path := p; offset := 0 |} |} = (None, s1)).
  { cbn. unfold scan. cbn [s_offset s_buffer s_path offset]. by rewrite Hdrop. }
  unfold NextValue. cbn [jsonScanner atStartOfValue scanning s_path offset].
  change (negb (0 =? 0)) with false. cbn iota. mred.
  rewrite (parseChunk_step (Sc := scanning) fuel _ h s1) by exact Hstep.
  cbn beta iota.
  rewrite (NextValue_loop_scans (Sc := scanning) fuel _ 0%nat s1 s1); [| |lia|reflexivity].
  - assert (Hslice : slice buf o (o + 1) = Ret [lbracket]).
    { unfold slice.
      assert (Hlen : (Z.to_nat o < length buf)%nat).
      { apply lookup_lt_is_Some.
        rewrite <- (Nat.add_0_r (Z.to_nat o)), <- lookup_drop, Hdrop. by eexists. }
      replace ((0 <=? o) && (o <=? o + 1) && (o + 1 <=? Z.of_nat (length buf))) with true
        by (symmetry; repeat (apply andb_true_intro; split); lia).
      replace (Z.to_nat (o + 1) - Z.to_nat o)%nat with 1%nat by lia.
      by rewrite Hdrop. }
    change (slice _ _ _) with (slice buf o (o + 1)). by rewrite Hslice.
  - apply scans_done. cbn. unfold compareLocations. cbn [path offset s1 s_path].
    rewrite comparePaths_extend. cbn. lia.
Qed.

End ArrayFacts.

Section PreviousKeyMore.
Import Tree Position Json.

(** X24. For a cursor that stands past the first entry of its node,
    [getPreviousKey] returns the key on which the parent cursor stands, the
    key of the cursor's own node, whatever the index of the cursor. *)
Theorem getPreviousKey_inside_node h a l c p cs e :
  chain h (Some a) l (c :: p :: cs) ->
  0 < idx c <= count (nd c) ->
  l_entry (level_of p) = Some e ->
  exists cl, getPreviousKey (Some a) h = Ret (Some e.1, None, h ++ cl).
Proof.
  intros Hc Hidx He.
  pose proof (getPreviousKey_levels _ _ _ _ Hc) as Hrun.
  unfold previousKey_levels in Hrun. cbn in Hrun.
  replace (0 <? idx c) with true in Hrun by (symmetry; apply Z.ltb_lt; lia).
  unfold l_valid in Hrun at 1. cbn in Hrun.
  replace ((0 <=? idx c - 1) && (idx c - 1 <? count (nd c))) with true in Hrun
    by (symmetry; apply andb_true_intro; split; lia).
  by rewrite He in Hrun.
Qed.

(** X25. When the node before the cursor cannot be fetched,
    [getPreviousKey] returns the error of the node store and no key: the
    cursor stands at the start of its node, the parent cursor has an entry
    before its own, and the store fails on the reference of that entry. *)
Theorem getPreviousKey_fetch_error h a l c p cs e err :
  chain h (Some a) l (c :: p :: cs) ->
  idx c <= 0 ->
  0 < idx p <= count (nd p) ->
  entries (nd p) !! Z.to_nat (idx p - 1) = Some e ->
  nrw c e.2 = inl err ->
  exists cl, getPreviousKey (Some a) h = Ret (None, Some err, h ++ cl).
Proof.
  intros Hc Hidx Hp He Hns.
  pose proof (getPreviousKey_levels _ _ _ _ Hc) as Hrun.
  unfold previousKey_levels in Hrun. cbn in Hrun.
  replace (0 <? idx c) with false in Hrun by (symmetry; apply Z.ltb_ge; lia).
  replace (0 <? idx p) with true in Hrun by (symmetry; apply Z.ltb_lt; lia).
  cbn in Hrun. unfold l_entry, l_valid in Hrun. cbn in Hrun.
  replace ((0 <=? idx p - 1) && (idx p - 1 <? count (nd p))) with true in Hrun
    by (symmetry; apply andb_true_intro; split; lia).
  rewrite He in Hrun. unfold fetchChild in Hrun. by rewrite Hns in Hrun.
Qed.

End PreviousKeyMore.

(** ** Runs on the concrete repositories *)

Section RepoRuns.
Import Env Repo RepoExamples.
#[local] Existing Instance doltdb.
#[local] Existing Instance memfs.

Lemma diffTableHashes_order_witness :
  diffTableHashes_in (reverse (map_to_list (hashesOf head_tables)))
    (reverse (map_to_list (hashesOf merge_tables)))
    (hashesOf head_tables) (hashesOf merge_tables)
  = diffTableHashes (hashesOf head_tables) (hashesOf merge_tables).
Proof.
  apply (diffTableHashes_order _ _ (hashesOf head_tables) (hashesOf merge_tables));
    apply reverse_Permutation.
Defined.

Lemma diffTableHashes_deletion_as_zero_witness :
  diffTableHashes (hashesOf head_tables) (delete "a"%string (hashesOf merge_tables)) =
  diffTableHashes (hashesOf head_tables) (<["a"%string := zeroHash]> (hashesOf merge_tables)) /\
  diffTableHashes (hashesOf head_tables) (delete "a"%string (hashesOf merge_tables))
    !! "a"%string = Some zeroHash.
Proof.
  apply (diffTableHashes_deletion_as_zero (hashesOf head_tables) (hashesOf merge_tables)
           "a"%string (bs "a0")); [reflexivity | discriminate].
Defined.

Lemma mapTableHashes_map_or_error_witness :
  mapTableHashes (rootOfTables head_tables) = Ret (Some (hashesOf head_tables), None) /\
  (Some (hashesOf head_tables) = None <-> @None error <> None).
Proof.
  split; [vm_compute; reflexivity|].
  apply (mapTableHashes_map_or_error (rootOfTables head_tables)).
  vm_compute. reflexivity.
Defined.

Lemma mapTableHashes_first_error_witness :
  mapTableHashes unreadable_root = Ret (None, Some (Errorf "table cannot be read")).
Proof.
  apply (mapTableHashes_first_error unreadable_root ["a"%string] "b"%string ["c"%string]
           zeroHash false); [reflexivity | | reflexivity].
  constructor; [by exists (bs "a0") | constructor].
Defined.

Lemma MergeWouldStompChanges_stomped_witness :
  exists stompedTables,
    MergeWouldStompChanges (rootWith working_tables) (commitWith merge_tables)
      (dbDataWith head_tables) =
      Ret (Some stompedTables,
           Some (diffTableHashes (hashesOf head_tables) (hashesOf working_tables)), None) /\
    NoDup stompedTables /\
    (forall t, t ∈ stompedTables <->
       hashesOf head_tables !! t <> hashesOf working_tables !! t /\
       hashesOf head_tables !! t <> hashesOf merge_tables !! t) /\
    (forall ws,
       ws ≡ₚ map_to_list (diffTableHashes (hashesOf head_tables) (hashesOf working_tables)) ->
       stomped (diffTableHashes (hashesOf head_tables) (hashesOf merge_tables)) ws
       ≡ₚ stompedTables).
Proof.
  apply (MergeWouldStompChanges_stomped _ _ _ (rootWith head_tables) (rootWith merge_tables));
    vm_compute; reflexivity.
Defined.

Lemma MergeWouldStompChanges_same_change_witness :
  exists stompedTables,
    MergeWouldStompChanges (rootWith working_tables) (commitWith working_tables)
      (dbDataWith head_tables) =
      Ret (Some stompedTables,
           Some (diffTableHashes (hashesOf head_tables) (hashesOf working_tables)), None) /\
    forall t, t ∈ stompedTables <->
      is_Some (diffTableHashes (hashesOf head_tables) (hashesOf working_tables) !! t).
Proof.
  apply (MergeWouldStompChanges_same_change _ _ _ (rootWith head_tables) (rootWith working_tables));
    vm_compute; reflexivity.
Defined.

Lemma MergeWouldStompChanges_clean_witness :
  MergeWouldStompChanges (rootWith working_tables) (commitWith merge_tables)
    (dbDataWith working_tables) = Ret (Some [], Some ∅, None).
Proof.
  apply (MergeWouldStompChanges_clean _ _ _ (rootWith working_tables) (rootWith merge_tables)
           (hashesOf working_tables) (hashesOf merge_tables));
    vm_compute; reflexivity.
Defined.

Lemma UpdateStagedRootWithVErr_message_witness :
  UpdateStagedRootWithVErr (ddbWith head_tables) failing_writer (rootWith working_tables) =
  Some "fatal: failed to update the staged root state"%string.
Proof.
  apply (UpdateStagedRootWithVErr_message (ddbWith head_tables) failing_writer
           (rootWith working_tables)).
  discriminate.
Defined.

Lemma AbortMerge_no_merge_witness :
  AbortMerge marshal idle_state ∅ = Panic nil_deref /\
  GetMergeCommit idle_state = Panic nil_deref.
Proof. apply (AbortMerge_no_merge marshal idle_state ∅). reflexivity. Defined.

Lemma StartMerge_AbortMerge_witness :
  exists err fs2,
    AbortMerge marshal
      (set_working "changed" (StartMerge marshal "feature" idle_state ∅).1.1)
      (StartMerge marshal "feature" idle_state ∅).2
    = Ret (idle_state, err, fs2).
Proof.
  destruct (StartMerge_AbortMerge marshal "feature" idle_state ∅ "changed")
    as [(err & fs2 & Hrun) Hsame].
  exists err, fs2. rewrite <- (Hsame eq_refl) at 3. exact Hrun.
Defined.

Lemma AddRemote_map_witness :
  AddRemote origin idle_state = Panic assignment_to_nil_map /\
  exists rs rs',
    CreateRepoState marshal ∅ "refs/heads/master" zeroHash
      = (Some rs, None, {[ ".dolt/repo_state.json"%string := [] ]}) /\
    AddRemote origin rs = Ret rs' /\
    Remotes rs' = Some {[ "origin"%string := origin ]}.
Proof.
  split.
  - apply (proj1 (AddRemote_map marshal origin) idle_state). reflexivity.
  - eexists. 
    assert (Hrun : CreateRepoState marshal ∅ "refs/heads/master" zeroHash
      = (Some {| Head := {| Ref := "refs/heads/master"%string |}; Merge := None;
                 Remotes := Some ∅; Branches := Some ∅;
                 staged := EmptyString; working := EmptyString |}, None,
         {[ ".dolt/repo_state.json"%string := [] ]})) by reflexivity.
    destruct (proj2 (AddRemote_map marshal origin) _ _ _ _ _ Hrun) as (rs' & Hadd & Hrem).
    exists rs'. split; [exact Hrun|]. split; [exact Hadd | exact Hrem].
Defined.

Lemma GetGCKeepers_keepers_witness :
  GetGCKeepers (reader true) (ddbWith head_tables) =
    (Some [bs "root"; bs "staged"; bs "commit"; bs "before"], None) /\
  exists workingHash,
    Root_HashOf (rsr_WorkingRoot (reader true)).1 = (workingHash, None).
Proof.
  split; [reflexivity|].
  destruct (GetGCKeepers_keepers (reader true) (ddbWith head_tables)
              [bs "root"; bs "staged"; bs "commit"; bs "before"] None eq_refl)
    as (_ & workingHash & Hw & _).
  by exists workingHash.
Defined.

End RepoRuns.

(** ** More runs on the concrete trees *)

Section MoreRuns.
Import Tree Position Json Reference Examples.
#[local] Existing Instance scanning.
#[local] Existing Instance seeking.

Lemma AdvanceToLocation_again_witness :
  exists j' h',
    AdvanceToLocation 6 (cursorAt (lbracket :: ab) 0 at_root) second_of_pair
      (heapAt pair_split 0) = Ret (None, j', h') /\
    AdvanceToLocation 0 j' second_of_pair h' = Ret (None, j', h').
Proof.
  eexists _, _. split; [vm_compute; reflexivity|].
  eapply (AdvanceToLocation_again (Sc := scanning) (Sk := seeking) 6 0 (cursorAt (lbracket :: ab) 0 at_root)
            second_of_pair (heapAt pair_split 0)).
  vm_compute. reflexivity.
Defined.

Lemma AdvanceToNextLocation_not_crossed_witness :
  scanner_AdvanceToNextLocation (jsonScanner first_of_pair)
    = (None, jsonScanner after_first_of_pair) /\
  @None error <> Some io_EOF /\
  cur after_first_of_pair = cur first_of_pair /\
  heapAt pair_split 0 = heapAt pair_split 0.
Proof.
  apply (AdvanceToNextLocation_not_crossed 5 first_of_pair (heapAt pair_split 0)
           None after_first_of_pair (heapAt pair_split 0)).
  vm_compute. reflexivity.
Defined.

Lemma NextValue_within_chunk_witness :
  NextValue 5 first_of_pair (heapAt pair_split 0)
  = Ret (ab, None, after_first_of_pair, heapAt pair_split 0).
Proof.
  etrans.
  - apply (NextValue_within_chunk 4 0 first_of_pair (heapAt pair_split 0)
             (jsonScanner after_first_of_pair) (jsonScanner after_first_of_pair)).
    + reflexivity.
    + reflexivity.
    + apply scans_done. vm_compute. discriminate.
    + lia.
  - reflexivity.
Defined.

Lemma AdvanceToLocation_within_chunk_witness :
  AdvanceToLocation 3 (cursorAt pair 0 at_root) second_of_pair (heapAt pair_whole 0)
  = Ret (None, cursorAt pair 6 second_of_pair, heapAt pair_whole 0).
Proof.
  apply (AdvanceToLocation_within_chunk (Sc := scanning) (Sk := seeking) second_of_pair 3
           (jsonScanner (cursorAt pair 0 at_root))
           (jsonScanner (cursorAt pair 6 second_of_pair))); [|reflexivity|lia].
  eapply scans_step; [vm_compute; reflexivity | vm_compute; reflexivity |].
  eapply scans_step; [vm_compute; reflexivity | vm_compute; reflexivity |].
  eapply scans_step; [vm_compute; reflexivity | vm_compute; reflexivity |].
  apply scans_done. vm_compute. discriminate.
Defined.

Lemma NextValue_end_of_tree_witness :
  exists h1,
    NextValue 5 end_of_open_array (heapAt open_array 0)
    = Ret ([], Some io_EOF, end_of_open_array, h1).
Proof.
  eexists.
  eapply (NextValue_end_of_tree 4 end_of_open_array (heapAt open_array 0)
            (jsonScanner end_of_open_array)); vm_compute; reflexivity.
Defined.

Lemma NextValue_keeps_valid_witness :
  JsonCursor_Valid after_first_of_pair (heapAt pair_split 0)
  = Ret (true, heapAt pair_split 0).
Proof.
  apply (NextValue_keeps_valid 5 first_of_pair (heapAt pair_split 0) ab);
    vm_compute; reflexivity.
Defined.

Lemma NextValue_first_byte_witness : head ab = Some quote.
Proof.
  apply (NextValue_first_byte 5 first_of_pair (heapAt pair_split 0) ab
           after_first_of_pair (heapAt pair_split 0));
    [vm_compute; reflexivity | vm_compute; reflexivity | discriminate].
Defined.


(** C1 on the pair held in one chunk: [NextValue] at the root of the
    document returns its first byte. *)
Lemma NextValue_array_truncated_witness :
  NextValue 5 (cursorAt pair 0 at_root) (heapAt pair_whole 0)
  = Ret ([lbracket], None, cursorAt pair 1 {| path := [O]; offset := 0 |},
         heapAt pair_whole 0).
Proof.
  apply (NextValue_array_truncated 4 (Some 1%nat) pair 0 []
           (ab ++ comma :: cd ++ [rbracket])); [lia | reflexivity].
Defined.

(** C2: the two chunks of the pair put together are the pair; [NextValue]
    at the root of the pair cut in two returns, with a nil error, the opening
    bracket alone, as it does on the pair held in one chunk; these are not
    the bytes of the document. *)
Lemma NextValue_split_array :
  concat (snd <$> pair_split) = pair /\
  (exists j' h',
      NextValue 5 (cursorAt (lbracket :: ab) 0 at_root) (heapAt pair_split 0)
      = Ret ([lbracket], None, j', h')) /\
  (exists j' h',
      NextValue 5 (cursorAt pair 0 at_root) (heapAt pair_whole 0)
      = Ret ([lbracket], None, j', h')) /\
  [lbracket] <> pair.
Proof.
  split; [reflexivity|]. split; [|split]; [| |discriminate];
    eexists _, _; vm_compute; reflexivity.
Qed.

(** C7: at the root of the triple cut in three, [NextValue] returns a nil
    error with one byte of the fifteen of the value; the tree cursor is valid
    and still on the first chunk, and the scanner stands at the start of the
    first element. *)
Lemma NextValue_partial_success :
  concat (snd <$> triple_split) = triple /\
  exists res j' h',
    NextValue 5 (cursorAt (lbracket :: ab) 0 at_root) (heapAt triple_split 0)
    = Ret (res, None, j', h') /\
    res = [lbracket] /\
    res <> triple /\
    (length res < length triple)%nat /\
    GetCurrentPath j' = {| path := [O]; offset := 0 |} /\
    h' = heapAt triple_split 0 /\
    Valid (cur j') h' = Ret (true, h').
Proof.
  split; [reflexivity|].
  eexists _, _, _. split; [vm_compute; reflexivity|]. split; [reflexivity|].
  split; [discriminate|]. split; [vm_compute; lia|].
  split; [reflexivity|]. split; [reflexivity | vm_compute; reflexivity].
Qed.

Lemma newJsonCursor_result_witness :
  exists jcur h',
    newJsonCursor cursorAtKey 5 (storeOf pair_split) (rootOf pair_split) second_of_pair []
      = Ret (Some jcur, None, h') /\
    GetCurrentPath jcur = second_of_pair /\
    ~ compareJsonLocations (GetCurrentPath jcur) second_of_pair < 0.
Proof.
  eexists _, _. split; [vm_compute; reflexivity|]. split; [reflexivity|].
  pose proof (newJsonCursor_result (Sc := scanning) (Sk := seeking) cursorAtKey 5
                (storeOf pair_split) (rootOf pair_split) second_of_pair [] _ _ _
                ltac:(vm_compute; reflexivity)) as Hresult.
  exact (proj2 (proj2 Hresult)).
Defined.

Lemma newJsonCursor_nil_parent_witness :
  newJsonCursor cursorAtKey 5 wide_store wide_leaf at_k2 [] = Panic nil_deref.
Proof.
  eapply (newJsonCursor_nil_parent (Sc := scanning) (Sk := seeking) cursorAtKey 5
            wide_store wide_leaf at_k2 [] _ O).
  - vm_compute. reflexivity.
  - reflexivity.
  - reflexivity.
  - vm_compute. split; [reflexivity | discriminate].
Defined.

Lemma chain_wide_heap :
  chain wide_heap (Some 1%nat) [1%nat; O]
    [ {| nd := wide_leaf; idx := 1; parent := Some O; nrw := wide_store |};
      {| nd := wide_root; idx := 0; parent := None; nrw := wide_store |} ].
Proof.
  constructor; [reflexivity | | by apply not_elem_of_cons; split; [lia | apply not_elem_of_nil]].
  constructor; [reflexivity | constructor | apply not_elem_of_nil].
Defined.

Lemma getPreviousKey_inside_node_witness :
  exists cl, getPreviousKey (Some 1%nat) wide_heap = Ret (Some (bs "k2"), None, wide_heap ++ cl).
Proof.
  apply (getPreviousKey_inside_node wide_heap 1%nat _ _ _ _ (bs "k2", refOf O) chain_wide_heap).
  - vm_compute. split; [reflexivity | discriminate].
  - reflexivity.
Defined.

Lemma chain_lost_heap :
  chain lost_heap (Some 1%nat) [1%nat; O] [ lost_leafCursor; rootCursor pair_split 1 ].
Proof.
  constructor; [reflexivity | | by apply not_elem_of_cons; split; [lia | apply not_elem_of_nil]].
  constructor; [reflexivity | constructor | apply not_elem_of_nil].
Defined.

Lemma getPreviousKey_fetch_error_witness :
  exists cl,
    getPreviousKey (Some 1%nat) lost_heap
    = Ret (None, Some (Errorf "chunk not found"), lost_heap ++ cl).
Proof.
  apply (getPreviousKey_fetch_error lost_heap 1%nat _ _ _ _ (keyAt [O] 4, refOf O)
           (Errorf "chunk not found") chain_lost_heap).
  - vm_compute. discriminate.
  - vm_compute. split; [reflexivity | discriminate].
  - reflexivity.
  - reflexivity.
Defined.

End MoreRuns.
